(** * A shallow embedding of the minio storage drivers of the FTP server

    The repository carries two revisions of the object-store driver:
    - [Driver]      (driver/minio/minio.go, package [minio], server v2), and
    - [MinioDriver] (package [server], the older revision).
    Both talk to an object store through the minio-go client.  The client is
    not part of the repository; [Module minio] below is an executable model
    of the calls the drivers make, over one bucket held as a finite map from
    keys to byte sequences, together with a schedule of transport faults.

    The session engine that fires the login hooks is not among the sources
    either; [Module Session] models it from the specification and is driven
    against the [mockNotifier] of the integration test. *)

From Stdlib Require Import ZArith String Ascii List Lia Bool.
From stdpp Require Import base option list strings gmap pretty sorting.

Open Scope string_scope.
Open Scope Z_scope.

(** ** Go's [strings] package, as far as the drivers use it *)

Module strings.

(** [strip prefix s] is [Some rest] when [s = prefix ++ rest]. *)
Fixpoint strip (prefix s : string) : option string :=
  match prefix with
  | EmptyString => Some s
  | String a prefix' =>
      match s with
      | EmptyString => None
      | String b s' => if Ascii.eqb a b then strip prefix' s' else None
      end
  end.

Definition HasPrefix (s prefix : string) : bool :=
  match strip prefix s with Some _ => true | None => false end.

Definition TrimPrefix (s prefix : string) : string :=
  match strip prefix s with Some rest => rest | None => s end.

Fixpoint HasSuffix (s suffix : string) : bool :=
  String.eqb s suffix
  || match s with
     | EmptyString => false
     | String _ s' => HasSuffix s' suffix
     end.

(** A byte of a string, by its value. *)
Definition byte_is (a : ascii) (n : N) : bool := (N_of_ascii a =? n)%N.

(** [unicode.IsSpace] on the code points that UTF-8 writes in two bytes:
    U+0085 and U+00A0. *)
Definition space2 (a b : ascii) : bool :=
  byte_is a 194 && (byte_is b 133 || byte_is b 160).

(** [unicode.IsSpace] on the code points that UTF-8 writes in three bytes:
    U+1680, U+2000 to U+200A, U+2028, U+2029, U+202F, U+205F and U+3000. *)
Definition space3 (a b c : ascii) : bool :=
  (byte_is a 225 && (byte_is b 154 && byte_is c 128))
  || (byte_is a 226
      && ((byte_is b 128
           && (((128 <=? N_of_ascii c)%N && (N_of_ascii c <=? 138)%N)
               || byte_is c 168 || byte_is c 169 || byte_is c 175))
          || (byte_is b 129 && byte_is c 159)))
  || (byte_is a 227 && (byte_is b 128 && byte_is c 128)).

(** [TrimSpace s == ""]: [s] is white space from end to end.  [TrimSpace]
    reads [s] as UTF-8 and cuts the code points of [unicode.IsSpace]: the
    six of ASCII and those of [space2] and [space3]; a byte that starts no
    such code point is kept, and [s] with it. *)
Fixpoint blank (s : string) : bool :=
  match s with
  | EmptyString => true
  | String a s1 =>
      if Ascii.is_space a then blank s1
      else
        match s1 with
        | EmptyString => false
        | String b s2 =>
            if space2 a b then blank s2
            else
              match s2 with
              | EmptyString => false
              | String c s3 => space3 a b c && blank s3
              end
        end
  end.

End strings.

(** ** 64-bit signed integers *)

Definition wrap64 (z : Z) : Z := (z + 2 ^ 63) mod 2 ^ 64 - 2 ^ 63.

Definition sub64 (a b : Z) : Z := wrap64 (a - b).

(** [len(data)] as an [int64]. *)
Definition len64 (data : list Byte.byte) : Z := Z.of_nat (length data).

(** ** Go error values *)

Inductive error : Type :=
| ErrorResponse (Code : string)   (* minio.ErrorResponse, by its Code *)
| errorString (s : string).       (* errors.New(s) and fmt.Errorf(...) *)

#[global] Instance error_eq_dec : EqDecision error.
Proof. solve_decision. Defined.

Inductive result (A : Type) : Type :=
| Ok (a : A)
| Fail (e : error).
Arguments Ok {A} a.
Arguments Fail {A} e.

Definition is_ok {A} (r : result A) : bool :=
  match r with Ok _ => true | Fail _ => false end.

(** ** The minio-go client over a single bucket *)

Module minio.

Record ObjectInfo : Type := mkObjectInfo {
  Key : string;
  Size : Z;
  Err : option error
}.

(** The zero value [ObjectInfo{}]. *)
Definition noInfo : ObjectInfo := mkObjectInfo "" 0 None.

(** The bucket of the driver and the faults still to come: every request
    sent to the service takes the head of [faults]; [Some e] makes that
    request fail with [e] and leaves the bucket as it is. *)
Record Client : Type := mkClient {
  objects : gmap string (list Byte.byte);
  faults : list (option error)
}.

Definition M (A : Type) : Type := Client → A * Client.

Definition ret {A} (a : A) : M A := λ c, (a, c).

Definition bind {A B} (m : M A) (k : A → M B) : M B :=
  λ c, let '(a, c') := m c in k a c'.

#[global] Instance client_ret : MRet M := @ret.
#[global] Instance client_bind : MBind M := λ A B k m, bind m k.

Definition request : M (option error) :=
  λ c, match faults c with
       | [] => (None, c)
       | f :: fs => (f, mkClient (objects c) fs)
       end.

Definition bucket : M (gmap string (list Byte.byte)) := λ c, (objects c, c).

Definition modify
    (f : gmap string (list Byte.byte) → gmap string (list Byte.byte)) : M unit :=
  λ c, (tt, mkClient (f (objects c)) (faults c)).

Definition NoSuchKey : error := ErrorResponse "NoSuchKey".
Definition InvalidRequest : error := ErrorResponse "InvalidRequest".
Definition InvalidArgument : error := ErrorResponse "InvalidArgument".
Definition EOF : error := errorString "EOF".

(** [s3utils.CheckValidObjectName]: a name that [TrimSpace] empties is
    refused by the client before anything is sent.  The client also refuses
    a name of more than 1024 bytes and one that is not UTF-8, and the
    service has rules of its own on the names it stores; these are not
    part of the model, and what is stated about storing an object is stated
    for the names of [plain] below, which pass them all. *)
Definition CheckValidObjectName (objectName : string) : option error :=
  if strings.blank objectName
  then Some (errorString "Object name cannot be empty")
  else None.

Definition info_of (key : string) (data : list Byte.byte) : ObjectInfo :=
  mkObjectInfo key (len64 data) None.

Definition StatObject (objectName : string) : M (result ObjectInfo) :=
  match CheckValidObjectName objectName with
  | Some e => mret (Fail e)
  | None =>
      err ← request;
      match err with
      | Some e => mret (Fail e)
      | None =>
          objs ← bucket;
          match objs !! objectName with
          | Some data => mret (Ok (info_of objectName data))
          | None => mret (Fail NoSuchKey)
          end
      end
  end.

(** *** Listing

    The listing is that of a bucket in which no key continues the key of
    an object across a "/" ([clash_free] below); what the service lists
    when an object lies on the way to another is not part of the model.

    Keys come back in byte order.  Without [recursive] the service is asked
    with the delimiter "/": a key that has a "/" after the prefix is rolled
    up, with all keys sharing that part, into one entry that carries the key
    up to and including this "/"; the client sends the objects of a reply
    first and the rolled-up prefixes after them. *)

Fixpoint upto_delimiter (rest : string) : option string :=
  match rest with
  | EmptyString => None
  | String a rest' =>
      if Ascii.eqb a "/" then Some "/" else String a <$> upto_delimiter rest'
  end.

Definition commonPrefix (prefix key : string) : option string :=
  rest ← strings.strip prefix key;
  seg ← upto_delimiter rest;
  Some (prefix +:+ seg).

Definition in_key_order (objs : gmap string (list Byte.byte))
  : list (string * list Byte.byte) :=
  merge_sort (λ a b, String.le a.1 b.1) (map_to_list objs).

Definition listing (objs : gmap string (list Byte.byte))
    (prefix : string) (recursive : bool) : list ObjectInfo :=
  let matching :=
    filter (λ kd, strings.HasPrefix kd.1 prefix) (in_key_order objs) in
  if recursive then (λ kd, info_of kd.1 kd.2) <$> matching
  else
    ((λ kd, info_of kd.1 kd.2)
       <$> filter (λ kd, commonPrefix prefix kd.1 = None) matching)
    ++ ((λ cp, mkObjectInfo cp 0 None)
          <$> remove_dups (omap (λ kd, commonPrefix prefix kd.1) matching)).

(** What the channel returned by [ListObjects] delivers.  A failed request
    is delivered as one entry with [Err] set, after which the channel is
    closed. *)
Definition ListObjects (objectPrefix : string) (recursive : bool)
  : M (list ObjectInfo) :=
  err ← request;
  match err with
  | Some e => mret [mkObjectInfo "" 0 (Some e)]
  | None => objs ← bucket; mret (listing objs objectPrefix recursive)
  end.

(** Removing a key that is not there succeeds, as the service answers so. *)
Definition RemoveObject (objectName : string) : M (option error) :=
  match CheckValidObjectName objectName with
  | Some e => mret (Some e)
  | None =>
      err ← request;
      match err with
      | Some e => mret (Some e)
      | None => modify (delete objectName);; mret None
      end
  end.

(** [reader] is what the reader delivers before EOF ([nil] for a nil
    reader); a negative [objectSize] reads it to the end.  The key is
    stored as it is: which keys the service refuses to store is not part
    of the model (see [CheckValidObjectName]). *)
Definition PutObject (objectName : string) (reader : list Byte.byte)
    (objectSize : Z) : M (Z * option error) :=
  match CheckValidObjectName objectName with
  | Some e => mret (0, Some e)
  | None =>
      err ← request;
      match err with
      | Some e => mret (0, Some e)
      | None =>
          let data :=
            if objectSize <? 0 then reader
            else take (Z.to_nat objectSize) reader in
          modify (insert objectName data);; mret (len64 data, None)
      end
  end.

Definition NewSourceInfo (object : string) : string := object.

Definition NewDestinationInfo (object : string) : result string :=
  match CheckValidObjectName object with
  | Some e => Fail e
  | None => Ok object
  end.

(** A copy of an object onto itself that changes no metadata is refused by
    the service. *)
Definition CopyObject (dst src : string) : M (option error) :=
  err ← request;
  match err with
  | Some e => mret (Some e)
  | None =>
      objs ← bucket;
      match objs !! src with
      | None => mret (Some NoSuchKey)
      | Some data =>
          if String.eqb src dst then mret (Some InvalidRequest)
          else modify (insert dst data);; mret None
      end
  end.

(** [absMinPartSize]: 5 MiB. *)
Definition absMinPartSize : Z := 1024 * 1024 * 5.

(** The first loop of [ComposeObject]: the client asks for the properties
    of each source in turn, and refuses a source of less than
    [absMinPartSize] bytes unless it is the last one. *)
Fixpoint getProps (srcs : list string) : M (result (list (list Byte.byte))) :=
  match srcs with
  | [] => mret (Ok [])
  | src :: srcs' =>
      err ← request;
      match err with
      | Some e => mret (Fail e)
      | None =>
          objs ← bucket;
          match objs !! src with
          | None => mret (Fail NoSuchKey)
          | Some part =>
              if (len64 part <? absMinPartSize)
                 && negb (bool_decide (srcs' = []))
              then mret (Fail InvalidArgument)
              else
                r ← getProps srcs';
                match r with
                | Fail e => mret (Fail e)
                | Ok parts => mret (Ok (part :: parts))
                end
          end
      end
  end.

(** The sources are concatenated in the order given; the requests that
    build the object out of them are taken as one. *)
Definition ComposeObject (dst : string) (srcs : list string)
  : M (option error) :=
  if bool_decide (srcs = []) then mret (Some InvalidArgument)
  else
    r ← getProps srcs;
    match r with
    | Fail e => mret (Some e)
    | Ok parts =>
        err ← request;
        match err with
        | Some e => mret (Some e)
        | None => modify (insert dst (concat parts));; mret None
        end
    end.

(** *** Objects opened for reading *)

Record Object : Type := mkObject {
  objectName : string;
  currOffset : Z;
  objectInfo : ObjectInfo;
  objectInfoSet : bool
}.

(** [GetObject] sends nothing: the first request goes out with the first
    [Seek], [Stat] or read. *)
Definition GetObject (objectName : string) : result Object :=
  match CheckValidObjectName objectName with
  | Some e => Fail e
  | None => Ok (mkObject objectName 0 noInfo false)
  end.

Definition fetchInfo (o : Object) : M (result Object) :=
  if objectInfoSet o then mret (Ok o)
  else
    r ← StatObject (objectName o);
    match r with
    | Fail e => mret (Fail e)
    | Ok info => mret (Ok (mkObject (objectName o) (currOffset o) info true))
    end.

(** [object.Seek(offset, io.SeekStart)] *)
Definition Seek (o : Object) (offset : Z) : M (Object * (Z * option error)) :=
  if offset <? 0 then mret (o, (0, Some InvalidArgument))
  else
    r ← fetchInfo o;
    match r with
    | Fail e => mret (o, (0, Some e))
    | Ok o' =>
        if (-1 <? Size (objectInfo o')) && (Size (objectInfo o') <? offset)
        then mret (o', (0, Some EOF))
        else
          mret (mkObject (objectName o') offset (objectInfo o') true,
                (offset, None))
    end.

(** [object.Stat()] *)
Definition Stat (o : Object) : M (Object * result ObjectInfo) :=
  r ← fetchInfo o;
  match r with
  | Fail e => mret (o, Fail e)
  | Ok o' => mret (o', Ok (objectInfo o'))
  end.

Definition InvalidRange : error := ErrorResponse "InvalidRange".

(** [ioutil.ReadAll(object)]: the bytes from the current offset on.  The
    read asks the service for the object, from [currOffset] on when that is
    not 0; the service refuses a range that begins at or after the end of
    the object. *)
Definition ReadAll (o : Object) : M (list Byte.byte * option error) :=
  err ← request;
  match err with
  | Some e => mret ([], Some e)
  | None =>
      objs ← bucket;
      match objs !! objectName o with
      | None => mret ([], Some NoSuchKey)
      | Some data =>
          if (0 <? currOffset o) && (len64 data <=? currOffset o)
          then mret ([], Some InvalidRange)
          else mret (drop (Z.to_nat (currOffset o)) data, None)
      end
  end.

End minio.

(** ** The driver of driver/minio/minio.go

    A [Driver] holds its client and the name of its bucket, and every call
    it makes names that bucket; the state that its methods work on is the
    client above, whose [objects] are the objects of that bucket. *)

Module Driver.
Import minio.

Definition buildMinioPath (p : string) : string := strings.TrimPrefix p "/".

Definition buildMinioDir (p : string) : string :=
  let v := buildMinioPath p in
  if negb (strings.HasSuffix v "/") then v +:+ "/" else v.

Module minioFileInfo.
Record t : Type := mk {
  p : string;
  info : ObjectInfo;
  isDir : bool
}.
Definition Name (m : t) : string := p m.
Definition Size (m : t) : Z := minio.Size (info m).
Definition IsDir (m : t) : bool := isDir m.
End minioFileInfo.

Definition isDir (path : string) : M (bool * option error) :=
  let p := buildMinioDir path in
  r ← StatObject p;
  match r with
  | Fail _ =>
      objectCh ← ListObjects p false;
      mret (existsb (λ object, strings.HasPrefix (Key object) p) objectCh,
            None)
  | Ok info => mret (strings.HasSuffix (Key info) "/", None)
  end.

Definition Stat (path : string) : M (result minioFileInfo.t) :=
  if String.eqb path "/" then mret (Ok (minioFileInfo.mk "/" noInfo true))
  else
    let p := buildMinioPath path in
    r ← StatObject p;
    match r with
    | Fail _ =>
        '(isdir, err) ← isDir p;
        match err with
        | Some e => mret (Fail e)
        | None =>
            if (isdir : bool) then mret (Ok (minioFileInfo.mk path noInfo true))
            else mret (Fail (errorString "Not a directory"))
        end
    | Ok objInfo =>
        mret (Ok (minioFileInfo.mk p objInfo
                    (strings.HasSuffix (Key objInfo) "/")))
    end.

(** The loop of [ListDir] over what the channel delivers; [S] is the state
    the callback works on. *)
Fixpoint ListDir_range {S : Type} (p : string) (objectCh : list ObjectInfo)
    (callback : minioFileInfo.t → S → option error * S) (s : S)
  : option error * S :=
  match objectCh with
  | [] => (None, s)
  | object :: objectCh' =>
      match Err object with
      | Some e => (Some e, s)
      | None =>
          if String.eqb (Key object) p
          then ListDir_range p objectCh' callback s
          else
            let info :=
              minioFileInfo.mk (strings.TrimPrefix (Key object) p) object
                (strings.HasSuffix (Key object) "/") in
            match callback info s with
            | (Some e, s') => (Some e, s')
            | (None, s') => ListDir_range p objectCh' callback s'
            end
      end
  end.

Definition ListDir {S : Type} (path : string)
    (callback : minioFileInfo.t → S → option error * S) (s : S)
  : M (option error * S) :=
  let p := buildMinioDir path in
  let p := if String.eqb p "/" then "" else p in
  objectCh ← ListObjects p false;
  mret (ListDir_range p objectCh callback s).

Fixpoint DeleteDir_range (objectCh : list ObjectInfo) : M (option error) :=
  match objectCh with
  | [] => mret None
  | object :: objectCh' =>
      match Err object with
      | Some e => mret (Some e)
      | None =>
          err ← RemoveObject (Key object);
          match err with
          | Some e => mret (Some e)
          | None => DeleteDir_range objectCh'
          end
      end
  end.

Definition DeleteDir (path : string) : M (option error) :=
  let p := buildMinioPath path in
  objectCh ← ListObjects p true;
  DeleteDir_range objectCh.

Definition DeleteFile (path : string) : M (option error) :=
  RemoveObject (buildMinioPath path).

Definition Rename (fromPath toPath : string) : M (option error) :=
  let src := NewSourceInfo (buildMinioPath fromPath) in
  match NewDestinationInfo (buildMinioPath toPath) with
  | Fail e => mret (Some e)
  | Ok dst =>
      err ← CopyObject dst src;
      match err with
      | Some e => mret (Some e)
      | None => RemoveObject (buildMinioPath fromPath)
      end
  end.

Definition MakeDir (path : string) : M (option error) :=
  let dirPath := buildMinioDir path in
  '(_, err) ← PutObject dirPath [] 0;
  mret err.

(** On an error the deferred function closes the object and [nil] is
    returned in its place. *)
Definition GetFile (path : string) (offset : Z)
  : M (Z * option Object * option error) :=
  match GetObject (buildMinioPath path) with
  | Fail e => mret (0, None, Some e)
  | Ok object =>
      '(object, (_, err)) ← Seek object offset;
      match err with
      | Some e => mret (0, None, Some e)
      | None =>
          '(object, r) ← minio.Stat object;
          match r with
          | Fail e => mret (0, None, Some e)
          | Ok info => mret (sub64 (Size info) offset, Some object, None)
          end
      end
  end.

(** [fmt.Errorf("It's unsupported that offset %d is not equal to %d", ...)] *)
Definition unsupportedOffset (offset size : Z) : error :=
  errorString ("It's unsupported that offset " +:+ pretty offset
               +:+ " is not equal to " +:+ pretty size).

(** [data] is what the reader delivers.  The deferred removal of the
    temporary object runs when the function returns; its error is only
    logged. *)
Definition PutFile (destPath : string) (data : list Byte.byte) (offset : Z)
  : M (Z * option error) :=
  let p := buildMinioPath destPath in
  if offset =? -1 then PutObject p data (-1)
  else
    let tempFile := p +:+ ".tmp" in
    res ← (r ← StatObject p;
           match r with
           | Fail e => mret (0, Some e)
           | Ok info =>
               if negb (offset =? Size info)
               then mret (0, Some (unsupportedOffset offset (Size info)))
               else
                 '(size, err) ← PutObject tempFile data (-1);
                 match err with
                 | Some e => mret (size, Some e)
                 | None =>
                     let srcs := [NewSourceInfo tempFile; NewSourceInfo p] in
                     match NewDestinationInfo p with
                     | Fail e => mret (0, Some e)
                     | Ok dst =>
                         err ← ComposeObject dst srcs;
                         mret (size, err)
                     end
                 end
           end);
    DeleteFile tempFile;;
    mret res.

End Driver.

(** ** The driver of the older revision (package server) *)

Module MinioDriver.
Import minio.

Definition ErrNotImplemented : error := errorString "not implemented".

Definition ChangeDir (path : string) : M (option error) :=
  mret (Some ErrNotImplemented).

Definition buildMinioPath (p : string) : string := strings.TrimPrefix p "/".

(** The [perm] field only serves [Mode], [Owner] and [Group] and is left
    out. *)
Module minioFileInfo.
Record t : Type := mk {
  p : string;
  info : ObjectInfo;
  isDir : bool
}.
Definition Name (m : t) : string := p m.
Definition Size (m : t) : Z := minio.Size (info m).
Definition IsDir (m : t) : bool := isDir m.
End minioFileInfo.

Definition isDir (path : string) : M (bool * option error) :=
  let p := buildMinioPath path in
  objectCh ← ListObjects p false;
  match objectCh with
  | [] => mret (false, None)
  | object :: _ =>
      match Err object with
      | Some e => mret (false, Some e)
      | None => mret (true, None)
      end
  end.

Definition Stat (path : string) : M (result minioFileInfo.t) :=
  if String.eqb path "/" then mret (Ok (minioFileInfo.mk "/" noInfo true))
  else
    let p := buildMinioPath path in
    r ← StatObject p;
    match r with
    | Fail _ =>
        '(isdir, err) ← isDir path;
        match err with
        | Some e => mret (Fail e)
        | None =>
            if (isdir : bool) then mret (Ok (minioFileInfo.mk path noInfo true))
            else mret (Fail (errorString "Not a directory"))
        end
    | Ok objInfo => mret (Ok (minioFileInfo.mk p objInfo false))
    end.

Fixpoint ListDir_range {S : Type} (objectCh : list ObjectInfo)
    (callback : minioFileInfo.t → S → option error * S) (s : S)
  : option error * S :=
  match objectCh with
  | [] => (None, s)
  | object :: objectCh' =>
      match Err object with
      | Some e => (Some e, s)
      | None =>
          match callback (minioFileInfo.mk (Key object) object false) s with
          | (Some e, s') => (Some e, s')
          | (None, s') => ListDir_range objectCh' callback s'
          end
      end
  end.

Definition ListDir {S : Type} (path : string)
    (callback : minioFileInfo.t → S → option error * S) (s : S)
  : M (option error * S) :=
  let p := buildMinioPath path in
  objectCh ← ListObjects p false;
  mret (ListDir_range objectCh callback s).

Fixpoint DeleteDir_range (objectCh : list ObjectInfo) : M (option error) :=
  match objectCh with
  | [] => mret None
  | object :: objectCh' =>
      match Err object with
      | Some e => mret (Some e)
      | None =>
          err ← RemoveObject (Key object);
          match err with
          | Some e => mret (Some e)
          | None => DeleteDir_range objectCh'
          end
      end
  end.

Definition DeleteDir (path : string) : M (option error) :=
  let p := buildMinioPath path in
  objectCh ← ListObjects p false;
  DeleteDir_range objectCh.

Definition DeleteFile (path : string) : M (option error) :=
  RemoveObject (buildMinioPath path).

Definition Rename (fromPath toPath : string) : M (option error) :=
  let src := NewSourceInfo (buildMinioPath fromPath) in
  match NewDestinationInfo (buildMinioPath toPath) with
  | Fail e => mret (Some e)
  | Ok dst =>
      err ← CopyObject dst src;
      match err with
      | Some e => mret (Some e)
      | None => RemoveObject (buildMinioPath fromPath)
      end
  end.

Definition MakeDir (path : string) : M (option error) := mret None.

Definition GetFile (path : string) (offset : Z)
  : M (Z * option Object * option error) :=
  if 0 <? offset then mret (0, None, Some ErrNotImplemented)
  else
    match GetObject (buildMinioPath path) with
    | Fail e => mret (0, None, Some e)
    | Ok object =>
        '(object, r) ← minio.Stat object;
        match r with
        | Fail e => mret (0, None, Some e)
        | Ok info => mret (Size info, Some object, None)
        end
    end.

Definition PutFile (destPath : string) (data : list Byte.byte)
    (appendData : bool) : M (Z * option error) :=
  if negb appendData then PutObject (buildMinioPath destPath) data (-1)
  else mret (0, Some ErrNotImplemented).

End MinioDriver.

(** ** Setting a driver up

    [NewDriver] opens a client and makes sure that the bucket is there.  The
    service is seen here with all its buckets; what [minio.New] refuses (an
    endpoint that is no host name or address) and which bucket names the
    client refuses are parameters, the location of a new bucket is not
    looked at. *)

Module setup.

Record Service : Type := mkService {
  buckets : gmap string (gmap string (list Byte.byte));
  faults : list (option error)
}.

Definition request (sv : Service) : option error * Service :=
  match faults sv with
  | [] => (None, sv)
  | f :: fs => (f, mkService (buckets sv) fs)
  end.

Definition BucketAlreadyOwnedByYou : error :=
  ErrorResponse "BucketAlreadyOwnedByYou".

(** [&Driver{client: minioClient, bucket: bucket}]; the client is known by
    the endpoint it was made for. *)
Record Driver : Type := mkDriver {
  client : string;
  bucket : string
}.

(** The state on which the methods of a driver work: the objects of its
    bucket and the faults to come. *)
Definition client_of (driver : Driver) (sv : Service) : minio.Client :=
  minio.mkClient (default ∅ (buckets sv !! bucket driver)) (faults sv).

(** [MinioDriverFactory] of the older revision ([perm] left out, as in its
    [minioFileInfo]). *)
Record MinioDriverFactory : Type := mkFactory {
  endpoint : string;
  accessKeyID : string;
  secretAccessKey : string;
  useSSL : bool;
  location : string;
  factory_bucket : string
}.

Definition NewMinioDriverFactory
    (endpoint accessKeyID secretAccessKey location bucket : string)
    (useSSL : bool) : MinioDriverFactory :=
  mkFactory endpoint accessKeyID secretAccessKey useSSL location bucket.

Section NewDriver.
Variable New : string → option error.
Variable CheckValidBucketName : string → option error.

(** A bucket that is there already is not made again: the service answers
    that the caller owns it. *)
Definition MakeBucket (bucketName location : string) (sv : Service)
  : option error * Service :=
  match CheckValidBucketName bucketName with
  | Some e => (Some e, sv)
  | None =>
      match request sv with
      | (Some e, sv') => (Some e, sv')
      | (None, sv') =>
          match buckets sv' !! bucketName with
          | Some _ => (Some BucketAlreadyOwnedByYou, sv')
          | None =>
              (None, mkService (<[bucketName := ∅]> (buckets sv')) (faults sv'))
          end
      end
  end.

Definition BucketExists (bucketName : string) (sv : Service)
  : (bool * option error) * Service :=
  match CheckValidBucketName bucketName with
  | Some e => ((false, Some e), sv)
  | None =>
      match request sv with
      | (Some e, sv') => ((false, Some e), sv')
      | (None, sv') =>
          ((bool_decide (is_Some (buckets sv' !! bucketName)), None), sv')
      end
  end.

Definition NewDriver
    (endpoint accessKeyID secretAccessKey location bucket : string)
    (useSSL : bool) (sv : Service) : result Driver * Service :=
  match New endpoint with
  | Some err => (Fail err, sv)
  | None =>
      match MakeBucket bucket location sv with
      | (Some err, sv') =>
          let '((exists_, errBucketExists), sv'') := BucketExists bucket sv' in
          if negb exists_ || bool_decide (errBucketExists ≠ None)
          then (Fail err, sv'')
          else (Ok (mkDriver endpoint bucket), sv'')
      | (None, sv') => (Ok (mkDriver endpoint bucket), sv')
      end
  end.

(** [factory.NewDriver()] of the older revision. *)
Definition factory_NewDriver (factory : MinioDriverFactory) (sv : Service)
  : result Driver * Service :=
  match New (endpoint factory) with
  | Some err => (Fail err, sv)
  | None =>
      match MakeBucket (factory_bucket factory) (location factory) sv with
      | (Some err, sv') =>
          let '((exists_, errBucketExists), sv'') :=
            BucketExists (factory_bucket factory) sv' in
          if negb exists_ || bool_decide (errBucketExists ≠ None)
          then (Fail err, sv'')
          else (Ok (mkDriver (endpoint factory) (factory_bucket factory)), sv'')
      | (None, sv') =>
          (Ok (mkDriver (endpoint factory) (factory_bucket factory)), sv')
      end
  end.

End NewDriver.

End setup.

(** ** Login: the notifiers of the test and the session

    The integration test registers a [mockNotifier] that appends the name of
    every hook it receives to [actions] (its lock guards [actions] against
    the server's goroutine and is left out, as is the context argument that
    every hook receives first). *)

Class Notifier (N : Type) : Type := {
  BeforeLoginUser : N → string → N;
  BeforePutFile : N → string → N;
  BeforeDeleteFile : N → string → N;
  BeforeChangeCurDir : N → string → string → N;
  BeforeCreateDir : N → string → N;
  BeforeDeleteDir : N → string → N;
  BeforeDownloadFile : N → string → N;
  AfterUserLogin : N → string → string → bool → option error → N;
  AfterFilePut : N → string → Z → option error → N;
  AfterFileDeleted : N → string → option error → N;
  AfterCurDirChanged : N → string → string → option error → N;
  AfterDirCreated : N → string → option error → N;
  AfterDirDeleted : N → string → option error → N;
  AfterFileDownloaded : N → string → Z → option error → N
}.

Record mockNotifier : Type := mkMock { actions : list string }.

Definition record (m : mockNotifier) (action : string) : mockNotifier :=
  mkMock (actions m ++ [action])%list.

#[global] Instance mockNotifier_Notifier : Notifier mockNotifier := {
  BeforeLoginUser m userName := record m "BeforeLoginUser";
  BeforePutFile m dstPath := record m "BeforePutFile";
  BeforeDeleteFile m dstPath := record m "BeforeDeleteFile";
  BeforeChangeCurDir m oldCurDir newCurDir := record m "BeforeChangeCurDir";
  BeforeCreateDir m dstPath := record m "BeforeCreateDir";
  BeforeDeleteDir m dstPath := record m "BeforeDeleteDir";
  BeforeDownloadFile m dstPath := record m "BeforeDownloadFile";
  AfterUserLogin m userName password passMatched err :=
    record m "AfterUserLogin";
  AfterFilePut m dstPath size err := record m "AfterFilePut";
  AfterFileDeleted m dstPath err := record m "AfterFileDeleted";
  AfterCurDirChanged m oldCurDir newCurDir err :=
    record m "AfterCurDirChanged";
  AfterDirCreated m dstPath err := record m "AfterDirCreated";
  AfterDirDeleted m dstPath err := record m "AfterDirDeleted";
  AfterFileDownloaded m dstPath size err := record m "AfterFileDownloaded"
}.

(** [assetMockNotifier]: the last [len(lastActions)] actions of the mock are
    [lastActions]; slicing from a negative index panics, which fails the
    test as well. *)
Definition assetMockNotifier (mock : mockNotifier) (lastActions : list string)
  : bool :=
  if (length lastActions =? 0)%nat then true
  else if (length (actions mock) <? length lastActions)%nat then false
  else
    bool_decide
      (lastActions
       = drop (length (actions mock) - length lastActions) (actions mock)).

Module Session.

(** Modelled from the spec: the credential check behind [PASS], a
    pluggable verify-credentials contract that answers whether the
    password matched, or fails. *)
Class Auth (A : Type) : Type := {
  CheckPasswd : A → string → string → bool * option error
}.

(** Modelled from the spec: [SimpleAuth], which the test plugs in with
    "admin"/"admin", accepts one name and one password. *)
Record SimpleAuth : Type := mkSimpleAuth { Name : string; Password : string }.

#[global] Instance SimpleAuth_Auth : Auth SimpleAuth := {
  CheckPasswd a name pass :=
    (String.eqb name (Name a) && String.eqb pass (Password a), None)
}.

(** Modelled from the spec: the authentication state of a session. *)
Inductive authState : Type :=
| Unauthenticated
| UserNamed (name : string)
| Authenticated (name : string).

(** Modelled from the spec: what a login attempt does that an observer can
    tell apart (the hooks it fires and the credential check it makes), kept
    in the order in which it happens. *)
Inductive event : Type :=
| FiredBeforeLoginUser (userName : string)
| CheckedPasswd (userName password : string)
| FiredAfterUserLogin (userName password : string) (passMatched : bool)
    (err : option error).

Section session.
Context {N : Type} `{Notifier N} {A : Type} `{Auth A}.

(** Modelled from the spec: the session, as far as a login is concerned
    (the session engine is not among the sources): the user who is logged
    in, the name that [USER] gave and [PASS] has not yet taken up, the
    notifiers in registration order, and what has happened so far. *)
Record t : Type := mk {
  user : option string;
  reqUser : option string;
  notifiers : list N;
  history : list event
}.

(** Modelled from the spec: the authentication state.  A session is
    [Authenticated] from a successful check on; the integration test
    stores a file after a second login on the same connection has failed,
    so a later [USER] or a failed check does not take that away. *)
Definition state (s : t) : authState :=
  match user s with
  | Some name => Authenticated name
  | None =>
      match reqUser s with
      | Some name => UserNamed name
      | None => Unauthenticated
      end
  end.

(** Modelled from the spec: [USER] records the name and (re)starts the
    sequence. *)
Definition USER (name : string) (s : t) : t :=
  mk (user s) (Some name) (notifiers s) (history s).

(** Modelled from the spec: the first step of [PASS]; each notifier
    receives [BeforeLoginUser], in registration order. *)
Definition fireBeforeLoginUser (name : string) (s : t) : t :=
  mk (user s) (reqUser s)
     ((λ n, BeforeLoginUser n name) <$> notifiers s)
     (history s ++ [FiredBeforeLoginUser name])%list.

(** Modelled from the spec: the second step of [PASS], the credential
    check. *)
Definition checkPasswd (auth : A) (name pass : string) (s : t)
  : (bool * option error) * t :=
  (CheckPasswd auth name pass,
   mk (user s) (reqUser s) (notifiers s)
      (history s ++ [CheckedPasswd name pass])%list).

(** Modelled from the spec: the third step of [PASS]; each notifier
    receives [AfterUserLogin] with the result of the check. *)
Definition fireAfterUserLogin (name pass : string) (passMatched : bool)
    (err : option error) (s : t) : t :=
  mk (user s) (reqUser s)
     ((λ n, AfterUserLogin n name pass passMatched err) <$> notifiers s)
     (history s ++ [FiredAfterUserLogin name pass passMatched err])%list.

(** Modelled from the spec: [PASS] after [USER] fires [BeforeLoginUser],
    checks the credentials, fires [AfterUserLogin] with the result of the
    check, and logs the named user in when the check succeeded; when it did
    not, the session is as logged in as it was before.  Either way the name
    is used up.  Without a name it is a protocol error without side
    effects.  The answer says whether the user was logged in. *)
Definition PASS (auth : A) (pass : string) (s : t) : bool * t :=
  match reqUser s with
  | Some name =>
      let s1 := fireBeforeLoginUser name s in
      let '((ok, err), s2) := checkPasswd auth name pass s1 in
      let s3 := fireAfterUserLogin name pass ok err s2 in
      match err with
      | Some _ => (false, mk (user s3) None (notifiers s3) (history s3))
      | None =>
          if ok
          then (true, mk (Some name) None (notifiers s3) (history s3))
          else (false, mk (user s3) None (notifiers s3) (history s3))
      end
  | None => (false, s)
  end.

(** Modelled from the spec: the [Login] of the test's client sends [USER],
    then [PASS], and reports an error unless [PASS] was answered with
    success. *)
Definition Login (auth : A) (user password : string) (s : t)
  : bool * t :=
  PASS auth password (USER user s).

End session.

End Session.

(** ** Vocabulary of the statements *)

(** The first segment of a relative path, with its "/" when one follows:
    the name under which a directory shows what lies below it. *)
Fixpoint segment (rest : string) : string :=
  match rest with
  | EmptyString => EmptyString
  | String a rest' =>
      if Ascii.eqb a "/" then "/" else String a (segment rest')
  end.

(** [name] is an immediate child of the directory whose keys begin with
    [dir]: some stored key continues [dir] by a non-empty rest whose first
    segment is [name]. *)
Definition child (objs : gmap string (list Byte.byte)) (dir name : string)
  : Prop :=
  ∃ key rest,
    is_Some (objs !! key) ∧ key = dir +:+ rest ∧ rest ≠ "" ∧ name = segment rest.

(** A callback that never fails and keeps the names it is shown, in order. *)
Definition collect (m : Driver.minioFileInfo.t) (seen : list string)
  : option error * list string :=
  (None, (seen ++ [Driver.minioFileInfo.Name m])%list).

Definition collect_old (m : MinioDriver.minioFileInfo.t) (seen : list string)
  : option error * list string :=
  (None, (seen ++ [MinioDriver.minioFileInfo.Name m])%list).

(** A callback that never fails and keeps the entries it is shown. *)
Definition gather (m : Driver.minioFileInfo.t)
    (seen : list Driver.minioFileInfo.t)
  : option error * list Driver.minioFileInfo.t :=
  (None, (seen ++ [m])%list).

(** The prefix that [ListDir] of the newer driver lists for a path: the
    key of the directory with its closing "/", and the empty prefix for the
    root. *)
Definition dir_key (path : string) : string :=
  if String.eqb (Driver.buildMinioDir path) "/" then ""
  else Driver.buildMinioDir path.

(** *** The names and buckets of the statements

    The model of the client refuses a blank name and nothing else, and its
    bucket holds whatever is put into it.  The client and the service
    refuse more: the client a name of more than 1024 bytes or one that is
    not UTF-8; the service a key that begins with "/", has an empty
    segment, a segment "." or "..", or a segment that is too long for the
    name of a file once the service has added to it what it needs for
    itself.  What is stated below about storing an object is stated for
    [plain] keys, which pass all of this. *)

(** A byte below 128 stands for itself in UTF-8: it is no part of a longer
    code point. *)
Definition low (c : ascii) : Prop := (N_of_ascii c < 128)%N.

(** The visible characters of ASCII. *)
Definition printable (a : ascii) : bool :=
  (33 <=? N_of_ascii a)%N && (N_of_ascii a <=? 126)%N.

(** The segments of a key: what lies between its "/". *)
Fixpoint segments (key : string) : list string :=
  match key with
  | EmptyString => [EmptyString]
  | String a key' =>
      if Ascii.eqb a "/" then EmptyString :: segments key'
      else
        match segments key' with
        | seg :: segs => String a seg :: segs
        | [] => [String a EmptyString]
        end
  end.

Definition segment_ok (seg : string) : bool :=
  negb (String.eqb seg "") && negb (String.eqb seg ".")
  && negb (String.eqb seg "..") && (String.length seg <=? 128)%nat.

(** A plain key: not blank, at most 1024 bytes, of visible ASCII
    characters, in segments that are neither empty nor "." nor ".." nor
    longer than 128 bytes; a last segment may be empty, which makes the key
    end in "/". *)
Definition plain (key : string) : bool :=
  negb (strings.blank key)
  && (String.length key <=? 1024)%nat
  && forallb printable (list_ascii_of_string key)
  && match reverse (segments key) with
     | [] => false
     | [last] => segment_ok last
     | last :: firsts =>
         forallb segment_ok firsts && (String.eqb last "" || segment_ok last)
     end.

(** The key of a file: a plain key that does not end in "/". *)
Definition file_key (key : string) : bool :=
  plain key && negb (strings.HasSuffix key "/").

(** No key of the bucket continues another one across a "/": no object
    lies on the way to another object or to a directory marker.  What the
    service stores and lists where there is such a clash is not part of
    the model; what is stated below about listings and about what has been
    stored is stated for buckets that are free of clashes. *)
Definition clash_free (objs : gmap string (list Byte.byte)) : bool :=
  forallb
    (λ kd, forallb (λ kd', negb (strings.HasPrefix kd'.1 (kd.1 +:+ "/")))
             (map_to_list objs))
    (map_to_list objs).

(** * Properties *)

Ltac run :=
  unfold mbind, minio.client_bind, minio.bind, mret, minio.client_ret,
    minio.ret, minio.bucket, minio.modify in *.

(** ** Strings *)

Section string_facts.
Import strings.

Lemma string_app_nil_l s : "" +:+ s = s.
Proof. reflexivity. Qed.

Lemma string_app_cons a s t : String a s +:+ t = String a (s +:+ t).
Proof. reflexivity. Qed.

Lemma string_app_nil_r s : s +:+ "" = s.
Proof.
  induction s as [|a s IH]; [done|]. by rewrite string_app_cons, IH.
Qed.

Lemma string_app_assoc s t u : (s +:+ t) +:+ u = s +:+ (t +:+ u).
Proof.
  induction s as [|a s IH]; [done|]. by rewrite !string_app_cons, IH.
Qed.

Lemma strip_Some prefix s rest :
  strip prefix s = Some rest ↔ s = prefix +:+ rest.
Proof.
  revert s. induction prefix as [|a prefix IH]; intros s; simpl.
  - rewrite string_app_nil_l. split; [intros [= ->]|intros ->]; done.
  - rewrite string_app_cons. destruct s as [|b s]; [split; discriminate|].
    destruct (Ascii.eqb_spec a b) as [->|Hne].
    + rewrite IH. split; [intros ->|intros [= ->]]; done.
    + split; [discriminate|]. intros [= ? ?]. done.
Qed.

Lemma strip_app prefix rest : strip prefix (prefix +:+ rest) = Some rest.
Proof. by apply strip_Some. Qed.

Lemma HasPrefix_true s prefix :
  HasPrefix s prefix = true ↔ ∃ rest, s = prefix +:+ rest.
Proof.
  unfold HasPrefix. destruct (strip prefix s) as [rest|] eqn:E.
  - apply strip_Some in E. split; eauto.
  - split; [discriminate|]. intros [rest ->]. by rewrite strip_app in E.
Qed.

Lemma HasPrefix_app prefix rest : HasPrefix (prefix +:+ rest) prefix = true.
Proof. apply HasPrefix_true. eauto. Qed.

Lemma HasPrefix_refl s : HasPrefix s s = true.
Proof. apply HasPrefix_true. exists "". by rewrite string_app_nil_r. Qed.

Lemma HasPrefix_trans s p q :
  HasPrefix s p = true → HasPrefix p q = true → HasPrefix s q = true.
Proof.
  rewrite !HasPrefix_true. intros [r ->] [r' ->].
  exists (r' +:+ r). by rewrite string_app_assoc.
Qed.

Lemma TrimPrefix_app prefix rest : TrimPrefix (prefix +:+ rest) prefix = rest.
Proof. unfold TrimPrefix. by rewrite strip_app. Qed.

Lemma HasSuffix_true s suffix :
  HasSuffix s suffix = true ↔ ∃ front, s = front +:+ suffix.
Proof.
  induction s as [|a s IH]; cbn [HasSuffix].
  - rewrite orb_false_r. split.
    + intros ->%String.eqb_eq. by exists "".
    + intros [[|??] E]; [|discriminate].
      rewrite string_app_nil_l in E. subst. apply String.eqb_refl.
  - rewrite orb_true_iff, IH. split.
    + intros [->%String.eqb_eq|[front ->]]; [by exists ""|].
      by exists (String a front).
    + intros [[|b front] E].
      * left. rewrite string_app_nil_l in E. subst. apply String.eqb_refl.
      * right. rewrite string_app_cons in E. injection E as -> ->. eauto.
Qed.

Lemma HasSuffix_app front suffix : HasSuffix (front +:+ suffix) suffix = true.
Proof. apply HasSuffix_true. eauto. Qed.

Lemma byte_is_low c n : low c → (128 ≤ n)%N → byte_is c n = false.
Proof. unfold low, byte_is. intros ? ?. apply N.eqb_neq. lia. Qed.

Lemma space2_low_1 c b : low c → space2 c b = false.
Proof. intros Hc. unfold space2. by rewrite (byte_is_low c 194). Qed.

Lemma space2_low_2 a c : low c → space2 a c = false.
Proof.
  intros Hc. unfold space2.
  rewrite (byte_is_low c 133), (byte_is_low c 160) by (done || lia).
  apply andb_false_r.
Qed.

Lemma space3_low_1 c b d : low c → space3 c b d = false.
Proof.
  intros Hc. unfold space3.
  by rewrite (byte_is_low c 225), (byte_is_low c 226), (byte_is_low c 227)
    by (done || lia).
Qed.

Lemma space3_low_2 a c d : low c → space3 a c d = false.
Proof.
  intros Hc. unfold space3.
  rewrite (byte_is_low c 154), (byte_is_low c 128), (byte_is_low c 129)
    by (done || lia).
  cbn [andb orb]. by rewrite !andb_false_r.
Qed.

Lemma space3_low_3 a b c : low c → space3 a b c = false.
Proof.
  intros Hc. unfold space3.
  rewrite (byte_is_low c 128), (byte_is_low c 168), (byte_is_low c 169),
    (byte_is_low c 175), (byte_is_low c 159) by (done || lia).
  replace (128 <=? N_of_ascii c)%N with false
    by (symmetry; apply N.leb_gt; exact Hc).
  cbn [andb orb]. by rewrite !andb_false_r.
Qed.

Lemma blank_low c t : low c → Ascii.is_space c = false → blank (String c t) = false.
Proof.
  intros Hc Hsp. cbn [blank]. rewrite Hsp.
  destruct t as [|b t]; [done|]. rewrite (space2_low_1 _ _ Hc).
  destruct t as [|d t]; [done|]. by rewrite (space3_low_1 _ _ _ Hc).
Qed.

(** A string with a byte of ASCII that is no white space is not blank. *)
Lemma blank_cut c t s :
  low c → Ascii.is_space c = false → blank (s +:+ String c t) = false.
Proof.
  intros Hc Hsp.
  assert (∀ n s, (String.length s ≤ n)%nat → blank (s +:+ String c t) = false)
    as Hall; [|by apply (Hall (String.length s))].
  clear s. intros n. induction n as [|n IH]; intros s Hlen.
  { destruct s; [|simpl in Hlen; lia].
    rewrite string_app_nil_l. by apply blank_low. }
  destruct s as [|a s1].
  { rewrite string_app_nil_l. by apply blank_low. }
  cbn [String.length] in Hlen. rewrite string_app_cons. cbn [blank].
  destruct (Ascii.is_space a); [apply IH; lia|].
  destruct s1 as [|b s2].
  { rewrite string_app_nil_l. rewrite (space2_low_2 _ _ Hc).
    destruct t as [|d t]; [done|]. by rewrite (space3_low_2 _ _ _ Hc). }
  cbn [String.length] in Hlen. rewrite string_app_cons.
  destruct (space2 a b); [apply IH; lia|].
  destruct s2 as [|d s3].
  { rewrite string_app_nil_l. by rewrite (space3_low_3 _ _ _ Hc). }
  cbn [String.length] in Hlen. rewrite string_app_cons.
  rewrite IH by lia. apply andb_false_r.
Qed.

Lemma HasSuffix_slash_not_blank s : HasSuffix s "/" = true → blank s = false.
Proof.
  intros [front ->]%HasSuffix_true. apply blank_cut; [|done].
  unfold low. vm_compute. done.
Qed.

Lemma blank_tmp q : blank (q +:+ ".tmp") = false.
Proof. apply blank_cut; [|done]. unfold low. vm_compute. done. Qed.

Lemma plain_not_blank key : plain key = true → blank key = false.
Proof.
  unfold plain.
  by intros [[[Hb%negb_true_iff _]%andb_true_iff _]%andb_true_iff _]%andb_true_iff.
Qed.

Lemma file_key_not_blank key : file_key key = true → blank key = false.
Proof.
  unfold file_key. intros [Hp _]%andb_true_iff. by apply plain_not_blank.
Qed.

Lemma file_key_no_slash key : file_key key = true → HasSuffix key "/" = false.
Proof. unfold file_key. by intros [_ Hs%negb_true_iff]%andb_true_iff. Qed.

End string_facts.

(** ** The client *)

Section client_facts.
Import minio.

Implicit Types (c : Client) (objs : gmap string (list Byte.byte)).

Lemma request_objects c : objects (request c).2 = objects c.
Proof. unfold request. by destruct (faults c). Qed.

Lemma CheckValidObjectName_None name :
  CheckValidObjectName name = None ↔ strings.blank name = false.
Proof. unfold CheckValidObjectName. by destruct (strings.blank name). Qed.

Lemma StatObject_healthy objs name :
  strings.blank name = false →
  StatObject name (mkClient objs [])
  = (match objs !! name with
     | Some data => Ok (info_of name data)
     | None => Fail NoSuchKey
     end, mkClient objs []).
Proof.
  intros Hname. unfold StatObject, CheckValidObjectName. rewrite Hname.
  run. simpl. by destruct (objs !! name).
Qed.

Lemma StatObject_objects name c : objects (StatObject name c).2 = objects c.
Proof.
  unfold StatObject. destruct (CheckValidObjectName name); [done|].
  run. pose proof (request_objects c) as Hreq.
  destruct (request c) as [[e|] c']; simpl in *; [done|].
  by destruct (objects c' !! name).
Qed.

Lemma StatObject_Ok name c info c' :
  StatObject name c = (Ok info, c') →
  ∃ data, objects c !! name = Some data ∧ info = info_of name data.
Proof.
  unfold StatObject. destruct (CheckValidObjectName name); [done|].
  run. pose proof (request_objects c) as Hreq.
  destruct (request c) as [[e|] c1]; simpl in *; [done|].
  rewrite Hreq. destruct (objects c !! name) as [data|]; [|done].
  intros [= <- <-]. eauto.
Qed.

Lemma RemoveObject_healthy objs name :
  strings.blank name = false →
  RemoveObject name (mkClient objs [])
  = (None, mkClient (delete name objs) []).
Proof.
  intros Hname. unfold RemoveObject, CheckValidObjectName. by rewrite Hname.
Qed.

(** A removal touches no key but its own, and on success its key is gone. *)
Lemma RemoveObject_spec name c err c' :
  RemoveObject name c = (err, c') →
  match err with
  | None => objects c' = delete name (objects c)
  | Some _ => objects c' = objects c
  end.
Proof.
  unfold RemoveObject. destruct (CheckValidObjectName name).
  { by intros [= <- <-]. }
  run. pose proof (request_objects c) as Hreq.
  destruct (request c) as [[e|] c1]; simpl in *.
  - by intros [= <- <-].
  - intros [= <- <-]. simpl. by rewrite Hreq.
Qed.

Lemma PutObject_healthy objs name reader :
  strings.blank name = false →
  PutObject name reader (-1) (mkClient objs [])
  = ((len64 reader, None), mkClient (<[name:=reader]> objs) []).
Proof.
  intros Hname. unfold PutObject, CheckValidObjectName. by rewrite Hname.
Qed.

(** On a service that answers, [ComposeObject] leaves a service that
    answers, however it ends. *)
Lemma getProps_healthy srcs objs :
  ∃ r, getProps srcs (mkClient objs []) = (r, mkClient objs []).
Proof.
  induction srcs as [|src srcs [r IH]]; [by eexists|].
  cbn [getProps]. run. cbn [request faults objects].
  destruct (objs !! src) as [part|]; [|by eexists].
  destruct (_ && _); [by eexists|]. rewrite IH. destruct r; by eexists.
Qed.

Lemma ComposeObject_healthy dst srcs objs :
  ∃ err objs', ComposeObject dst srcs (mkClient objs []) = (err, mkClient objs' []).
Proof.
  unfold ComposeObject. destruct (bool_decide (srcs = [])); [by do 2 eexists|].
  run. destruct (getProps_healthy srcs objs) as [r ->].
  destruct r; by do 2 eexists.
Qed.

(** *** Listing *)

Lemma elem_of_in_key_order objs key data :
  (key, data) ∈ in_key_order objs ↔ objs !! key = Some data.
Proof.
  unfold in_key_order. rewrite merge_sort_Permutation.
  apply elem_of_map_to_list.
Qed.

Lemma NoDup_in_key_order objs : NoDup (in_key_order objs).*1.
Proof.
  unfold in_key_order. rewrite merge_sort_Permutation.
  apply NoDup_fst_map_to_list.
Qed.

Lemma elem_of_listing_recursive objs prefix o :
  o ∈ listing objs prefix true
  ↔ ∃ key data, objs !! key = Some data
      ∧ strings.HasPrefix key prefix = true ∧ o = info_of key data.
Proof.
  unfold listing. rewrite list_elem_of_fmap. split.
  - intros [[key data] [-> [Hp Hin]%list_elem_of_filter]].
    apply elem_of_in_key_order in Hin. apply Is_true_true in Hp. eauto.
  - intros (key & data & Hin & Hp & ->). exists (key, data).
    split; [done|]. apply list_elem_of_filter. split.
    + by apply Is_true_true.
    + by apply elem_of_in_key_order.
Qed.

Lemma elem_of_listing objs prefix o :
  o ∈ listing objs prefix false
  ↔ ∃ key data, objs !! key = Some data
      ∧ strings.HasPrefix key prefix = true
      ∧ match commonPrefix prefix key with
        | None => o = info_of key data
        | Some cp => o = mkObjectInfo cp 0 None
        end.
Proof.
  unfold listing. rewrite elem_of_app, !list_elem_of_fmap. split.
  - intros [[[key data] [-> [Hcp [Hp Hin]%list_elem_of_filter]%list_elem_of_filter]]
           |[cp [-> Hcp]]].
    + apply elem_of_in_key_order in Hin. apply Is_true_true in Hp.
      exists key, data. simpl in Hcp. by rewrite Hcp.
    + apply elem_of_remove_dups, list_elem_of_omap in Hcp
        as [[key data] [[Hp Hin]%list_elem_of_filter Hcp]].
      apply elem_of_in_key_order in Hin. apply Is_true_true in Hp.
      exists key, data. simpl in Hcp. by rewrite Hcp.
  - intros (key & data & Hin & Hp & Ho).
    assert ((key, data) ∈ filter (λ kd, strings.HasPrefix kd.1 prefix)
              (in_key_order objs)) as Hm.
    { apply list_elem_of_filter. split; [by apply Is_true_true|].
      by apply elem_of_in_key_order. }
    destruct (commonPrefix prefix key) as [cp|] eqn:Hcp; subst o.
    + right. exists cp. split; [done|].
      apply elem_of_remove_dups, list_elem_of_omap. by exists (key, data).
    + left. exists (key, data). split; [done|].
      by apply list_elem_of_filter.
Qed.

Lemma listing_Err objs prefix recursive o :
  o ∈ listing objs prefix recursive → Err o = None.
Proof.
  destruct recursive.
  - by intros (? & ? & _ & _ & ->)%elem_of_listing_recursive.
  - intros (key & ? & _ & _ & Ho)%elem_of_listing.
    by destruct (commonPrefix prefix key); subst o.
Qed.

Lemma commonPrefix_HasPrefix prefix key cp :
  commonPrefix prefix key = Some cp → strings.HasPrefix cp prefix = true.
Proof.
  unfold commonPrefix. destruct (strings.strip prefix key); [|done]. simpl.
  destruct (upto_delimiter s); [|done]. intros [= <-].
  apply HasPrefix_app.
Qed.

Lemma listing_HasPrefix objs prefix recursive o :
  o ∈ listing objs prefix recursive → strings.HasPrefix (Key o) prefix = true.
Proof.
  destruct recursive.
  - by intros (? & ? & _ & ? & ->)%elem_of_listing_recursive.
  - intros (key & ? & _ & ? & Ho)%elem_of_listing.
    destruct (commonPrefix prefix key) eqn:Hcp; subst o; [|done].
    by eapply commonPrefix_HasPrefix.
Qed.

Lemma ListObjects_healthy objs prefix recursive :
  ListObjects prefix recursive (mkClient objs [])
  = (listing objs prefix recursive, mkClient objs []).
Proof. reflexivity. Qed.

End client_facts.

(** ** Upload and download *)

Lemma wrap64_small z : - 2 ^ 63 ≤ z < 2 ^ 63 → wrap64 z = z.
Proof. intros Hz. unfold wrap64. rewrite Z.mod_small; lia. Qed.

Lemma len64_nonneg data : 0 ≤ len64 data.
Proof. unfold len64. lia. Qed.

Lemma GetFile_stored objs path data k :
  strings.blank (Driver.buildMinioPath path) = false →
  objs !! Driver.buildMinioPath path = Some data →
  0 ≤ k →
  Driver.GetFile path k (minio.mkClient objs [])
  = (if len64 data <? k then (0, None, Some minio.EOF)
     else (sub64 (len64 data) k,
           Some (minio.mkObject (Driver.buildMinioPath path) k
                   (minio.info_of (Driver.buildMinioPath path) data) true),
           None),
     minio.mkClient objs []).
Proof.
  intros Hname Hdata Hk. unfold Driver.GetFile, minio.GetObject.
  apply CheckValidObjectName_None in Hname as Hvalid. rewrite Hvalid.
  unfold minio.Seek. destruct (Z.ltb_spec k 0) as [?|_]; [lia|].
  unfold minio.fetchInfo. run. cbn [minio.objectInfoSet minio.objectName].
  rewrite (StatObject_healthy _ _ Hname), Hdata.
  cbn [minio.objectInfo minio.Size minio.info_of].
  destruct (Z.ltb_spec (-1) (len64 data)) as [_|?];
    [|pose proof (len64_nonneg data); lia].
  cbn [andb]. destruct (len64 data <? k); [done|].
  unfold minio.Stat, minio.fetchInfo. run. done.
Qed.

(** C1 (as amended).  What [PutFile] stores with offset -1 under the key
    of a file, which clashes with nothing stored, is what [GetFile] hands
    back: at an offset [k] with
    [0 <= k < n], and at offset 0 of an empty file, the stream delivers
    [b[k:]] and the count is [n - k]; at [k = n > 0] [GetFile] returns the
    count 0 and a stream without an error, and reading that stream fails;
    an offset beyond the end is refused with [io.EOF]. *)
Theorem PutFile_GetFile_roundtrip objs path b :
  file_key (Driver.buildMinioPath path) = true →
  clash_free (<[Driver.buildMinioPath path := b]> objs) = true →
  len64 b < 2 ^ 63 →
  ∃ c1,
    Driver.PutFile path b (-1) (minio.mkClient objs [])
    = ((len64 b, None), c1)
    ∧ ∀ k,
        (0 ≤ k ≤ len64 b →
         ∃ object,
           Driver.GetFile path k c1 = ((len64 b - k, Some object, None), c1)
           ∧ (k < len64 b ∨ k = 0 →
              minio.ReadAll object c1 = ((drop (Z.to_nat k) b, None), c1))
           ∧ (0 < k → k = len64 b →
              minio.ReadAll object c1
              = (([], Some minio.InvalidRange), c1)))
        ∧ (len64 b < k →
           Driver.GetFile path k c1 = ((0, None, Some minio.EOF), c1)).
Proof.
  intros Hname%file_key_not_blank _ Hlen. eexists. split.
  { unfold Driver.PutFile. simpl. by apply PutObject_healthy. }
  intros k. split.
  - intros Hk. eexists. split; [|split].
    + rewrite (GetFile_stored _ _ b); [|done|apply lookup_insert_eq|lia].
      destruct (Z.ltb_spec (len64 b) k) as [?|_]; [lia|].
      unfold sub64. rewrite wrap64_small; [done|lia].
    + intros Hin. unfold minio.ReadAll. run.
      cbn [minio.request minio.faults minio.objects minio.objectName
           minio.currOffset].
      rewrite lookup_insert_eq.
      destruct (Z.ltb_spec 0 k) as [?|?];
        destruct (Z.leb_spec (len64 b) k) as [?|?]; cbn [andb]; done || lia.
    + intros Hpos ->. unfold minio.ReadAll. run.
      cbn [minio.request minio.faults minio.objects minio.objectName
           minio.currOffset].
      rewrite lookup_insert_eq.
      destruct (Z.ltb_spec 0 (len64 b)) as [?|?];
        destruct (Z.leb_spec (len64 b) (len64 b)) as [?|?];
        cbn [andb]; done || lia.
  - intros Hk.
    rewrite (GetFile_stored _ _ b);
      [|done|apply lookup_insert_eq|pose proof (len64_nonneg b); lia].
    by destruct (Z.ltb_spec (len64 b) k) as [_|?]; [|lia].
Qed.

Lemma PutFile_GetFile_roundtrip_witness :
  ∃ c1,
    Driver.PutFile "/server_test.go" (list_byte_of_string "test") (-1)
      (minio.mkClient ∅ [])
    = ((4, None), c1)
    ∧ ∀ k,
        (0 ≤ k ≤ 4 →
         ∃ object,
           Driver.GetFile "/server_test.go" k c1
           = ((4 - k, Some object, None), c1)
           ∧ (k < 4 ∨ k = 0 →
              minio.ReadAll object c1
              = ((drop (Z.to_nat k) (list_byte_of_string "test"), None), c1))
           ∧ (0 < k → k = 4 →
              minio.ReadAll object c1
              = (([], Some minio.InvalidRange), c1)))
        ∧ (4 < k →
           Driver.GetFile "/server_test.go" k c1
           = ((0, None, Some minio.EOF), c1)).
Proof.
  apply (PutFile_GetFile_roundtrip ∅ "/server_test.go"
           (list_byte_of_string "test")).
  - reflexivity.
  - vm_compute. reflexivity.
  - reflexivity.
Defined.

(** The download of the integration test: "test" from offset 2 is "st". *)
Example RetrFrom_2 :
  let c1 := (Driver.PutFile "/server_test.go" (list_byte_of_string "test")
               (-1) (minio.mkClient ∅ [])).2 in
  ∃ object,
    (Driver.GetFile "/server_test.go" 2 c1).1 = (2, Some object, None)
    ∧ (minio.ReadAll object c1).1 = (list_byte_of_string "st", None).
Proof. eexists. split; vm_compute; reflexivity. Qed.

(** C1, counterexample: once "test" (4 bytes) is stored, [GetFile] at offset
    4 returns no error but an object at its end with 0 bytes remaining. *)
Lemma GetFile_at_end_is_not_an_error :
  let c1 := (Driver.PutFile "/server_test.go" (list_byte_of_string "test")
               (-1) (minio.mkClient ∅ [])).2 in
  (Driver.GetFile "/server_test.go" 4 c1).1
  = (0,
     Some (minio.mkObject "server_test.go" 4
             (minio.mkObjectInfo "server_test.go" 4 None) true),
     None).
Proof. vm_compute. reflexivity. Qed.

(** ** Directories as marker objects *)

Lemma buildMinioDir_HasSuffix path :
  strings.HasSuffix (Driver.buildMinioDir path) "/" = true.
Proof.
  unfold Driver.buildMinioDir.
  destruct (strings.HasSuffix (Driver.buildMinioPath path) "/") eqn:E;
    simpl; [done|apply HasSuffix_app].
Qed.

Lemma buildMinioDir_not_blank path :
  strings.blank (Driver.buildMinioDir path) = false.
Proof. apply HasSuffix_slash_not_blank, buildMinioDir_HasSuffix. Qed.

(** C9 (as amended).  For a path whose marker key [buildMinioDir path] is
    a plain key that clashes with nothing stored, [MakeDir] of the newer
    driver stores, on a store that answers, a zero-length object under that
    key, which ends in "/"; [MakeDir] of the older revision returns nil and
    leaves the bucket untouched. *)
Theorem MakeDir_marker objs path c :
  plain (Driver.buildMinioDir path) = true →
  clash_free (<[Driver.buildMinioDir path := []]> objs) = true →
  strings.HasSuffix (Driver.buildMinioDir path) "/" = true
  ∧ Driver.MakeDir path (minio.mkClient objs [])
    = (None, minio.mkClient (<[Driver.buildMinioDir path := []]> objs) [])
  ∧ MinioDriver.MakeDir path c = (None, c).
Proof.
  intros Hname%plain_not_blank _.
  split; [apply buildMinioDir_HasSuffix|]. split; [|done].
  unfold Driver.MakeDir, minio.PutObject, minio.CheckValidObjectName.
  by rewrite Hname.
Qed.

Lemma MakeDir_marker_witness :
  let objs : gmap string (list Byte.byte) :=
    {["server_test.go" := list_byte_of_string "test"]} in
  let c := minio.mkClient objs [None] in
  plain (Driver.buildMinioDir "/src") = true
  ∧ clash_free (<[Driver.buildMinioDir "/src" := []]> objs) = true
  ∧ strings.HasSuffix (Driver.buildMinioDir "/src") "/" = true
  ∧ Driver.MakeDir "/src" (minio.mkClient objs [])
    = (None, minio.mkClient (<[Driver.buildMinioDir "/src" := []]> objs) [])
  ∧ MinioDriver.MakeDir "/src" c = (None, c).
Proof.
  intros objs c.
  assert (plain (Driver.buildMinioDir "/src") = true) as Hname
    by (vm_compute; reflexivity).
  assert (clash_free (<[Driver.buildMinioDir "/src" := []]> objs) = true)
    as Hfree by (vm_compute; reflexivity).
  split; [exact Hname|]. split; [exact Hfree|].
  exact (MakeDir_marker objs "/src" c Hname Hfree).
Defined.

(** C9, counterexample: on an empty bucket [MakeDir "/src"] of the newer
    driver creates the marker "src/", that of the older revision creates
    nothing. *)
Lemma MakeDir_revisions_differ :
  minio.objects (Driver.MakeDir "/src" (minio.mkClient ∅ [])).2 !! "src/"
  = Some []
  ∧ minio.objects (MinioDriver.MakeDir "/src" (minio.mkClient ∅ [])).2 !! "src/"
    = None.
Proof. split; vm_compute; reflexivity. Qed.

(** ** Removing a file *)

(** C5 (as amended).  [DeleteFile] hands the key of the path to
    [RemoveObject] and returns what it returns, in both revisions: on nil the
    object stored under that key, if there was one, is gone and nothing else
    has changed; on an error nothing has changed; on a bucket that answers
    the result is nil for every plain key.  Whether the path names a
    directory is not looked at. *)
Theorem DeleteFile_removes_key path c err c' :
  Driver.DeleteFile path c = (err, c') →
  MinioDriver.DeleteFile path c = (err, c')
  ∧ match err with
    | None =>
        minio.objects c' = delete (Driver.buildMinioPath path) (minio.objects c)
    | Some _ => minio.objects c' = minio.objects c
    end
  ∧ (minio.faults c = [] →
     plain (Driver.buildMinioPath path) = true →
     err = None).
Proof.
  intros HD. split; [done|]. split.
  - by apply RemoveObject_spec in HD.
  - intros Hfaults Hname%plain_not_blank.
    destruct c as [objs fs]. simpl in Hfaults. subst fs.
    unfold Driver.DeleteFile in HD.
    rewrite (RemoveObject_healthy _ _ Hname) in HD. by injection HD as <- _.
Qed.

Lemma DeleteFile_removes_key_witness :
  let c := minio.mkClient
             (<["test.go" := list_byte_of_string "test"]>
                {["src/" := []]}) [] in
  let c' := minio.mkClient {["src/" := []]} [] in
  MinioDriver.DeleteFile "/test.go" c = (None, c')
  ∧ minio.objects c' = delete (Driver.buildMinioPath "/test.go") (minio.objects c)
  ∧ (minio.faults c = [] →
     plain (Driver.buildMinioPath "/test.go") = true →
     (None : option error) = None).
Proof.
  intros c c'. apply (DeleteFile_removes_key "/test.go" c None c').
  vm_compute. reflexivity.
Defined.

(** C5, counterexample: "/dir" names a directory (its marker and a child are
    stored, [Stat] says [IsDir]), yet [DeleteFile "/dir"] returns nil, in
    both revisions, and [DeleteFile "/dir/"] removes the marker. *)
Lemma DeleteFile_on_directory_returns_nil :
  let c := minio.mkClient
             (<["dir/" := []]> {["dir/a" := list_byte_of_string "x"]}) [] in
  (Driver.Stat "/dir" c).1
  = Ok (Driver.minioFileInfo.mk "/dir" minio.noInfo true)
  ∧ Driver.DeleteFile "/dir" c = (None, c)
  ∧ MinioDriver.DeleteFile "/dir" c = (None, c)
  ∧ Driver.DeleteFile "/dir/" c
    = (None, minio.mkClient {["dir/a" := list_byte_of_string "x"]} []).
Proof. repeat split; vm_compute; reflexivity. Qed.

(** ** Upload at an offset *)

Lemma string_length_app s t :
  String.length (s +:+ t) = (String.length s + String.length t)%nat.
Proof.
  induction s as [|a s IH]; [done|]. rewrite string_app_cons. simpl.
  by rewrite IH.
Qed.

(** The key under which the deferred [DeleteFile] looks for the temporary
    object is never the key of the destination, and never blank. *)
Lemma tempFile_key p :
  Driver.buildMinioPath (p +:+ ".tmp") ≠ p
  ∧ strings.blank (Driver.buildMinioPath (p +:+ ".tmp")) = false.
Proof.
  pose proof blank_tmp as Hblank.
  assert (∀ q r : string, String.length q ≠ String.length r → q ≠ r) as Hlen.
  { intros q r Hne ->. done. }
  destruct p as [|a p]; [done|].
  unfold Driver.buildMinioPath, strings.TrimPrefix.
  rewrite string_app_cons. cbn [strings.strip].
  destruct (Ascii.eqb "/" a).
  - split; [|apply Hblank]. apply Hlen. rewrite string_length_app. simpl. lia.
  - split.
    + apply Hlen. simpl. rewrite string_length_app. simpl. lia.
    + rewrite <- string_app_cons. apply Hblank.
Qed.

(** C2 (as amended).  For a path whose key is the key of a file and
    clashes with nothing stored: with offset -1 (older revision: without [appendData]) the object under the
    key of the path becomes exactly what the reader delivers.  The older revision refuses every append with
    [ErrNotImplemented].  The newer driver, at any other offset, returns the
    error of [StatObject] when nothing is stored at the path, and the
    "unsupported" error when the offset is not the size of what is stored;
    what is stored at the path is the same afterwards. *)
Theorem PutFile_offset objs destPath data :
  let p := Driver.buildMinioPath destPath in
  file_key p = true →
  clash_free (<[p := data]> objs) = true →
  Driver.PutFile destPath data (-1) (minio.mkClient objs [])
  = ((len64 data, None), minio.mkClient (<[p := data]> objs) [])
  ∧ MinioDriver.PutFile destPath data false (minio.mkClient objs [])
    = ((len64 data, None), minio.mkClient (<[p := data]> objs) [])
  ∧ MinioDriver.PutFile destPath data true (minio.mkClient objs [])
    = ((0, Some MinioDriver.ErrNotImplemented), minio.mkClient objs [])
  ∧ ∀ offset, offset ≠ -1 →
      ∃ c',
        minio.objects c' !! p = objs !! p
        ∧ match objs !! p with
          | None =>
              Driver.PutFile destPath data offset (minio.mkClient objs [])
              = ((0, Some minio.NoSuchKey), c')
          | Some old =>
              offset ≠ len64 old →
              Driver.PutFile destPath data offset (minio.mkClient objs [])
              = ((0, Some (Driver.unsupportedOffset offset (len64 old))), c')
          end.
Proof.
  intros p Hname%file_key_not_blank _. split; [|split; [|split]].
  - unfold Driver.PutFile. simpl. by apply PutObject_healthy.
  - unfold MinioDriver.PutFile. simpl. by apply PutObject_healthy.
  - done.
  - intros offset Hoff. destruct (tempFile_key p) as [Hne Htmp].
    exists (minio.mkClient
              (delete (Driver.buildMinioPath (p +:+ ".tmp")) objs) []).
    split; [simpl; by apply lookup_delete_ne|].
    unfold Driver.PutFile. fold p.
    destruct (Z.eqb_spec offset (-1)) as [?|_]; [done|].
    run. rewrite (StatObject_healthy _ _ Hname).
    unfold Driver.DeleteFile.
    destruct (objs !! p) as [old|].
    + intros Hsize. cbn [minio.info_of minio.Size].
      destruct (Z.eqb_spec offset (len64 old)) as [?|_]; [done|].
      cbn [negb]. by rewrite (RemoveObject_healthy _ _ Htmp).
    + by rewrite (RemoveObject_healthy _ _ Htmp).
Qed.

Lemma PutFile_offset_witness :
  let objs : gmap string (list Byte.byte) :=
    {["top" := list_byte_of_string "t"]} in
  let data := list_byte_of_string "new" in
  Driver.PutFile "/top" data (-1) (minio.mkClient objs [])
  = ((len64 data, None), minio.mkClient (<["top" := data]> objs) [])
  ∧ MinioDriver.PutFile "/top" data false (minio.mkClient objs [])
    = ((len64 data, None), minio.mkClient (<["top" := data]> objs) [])
  ∧ MinioDriver.PutFile "/top" data true (minio.mkClient objs [])
    = ((0, Some MinioDriver.ErrNotImplemented), minio.mkClient objs [])
  ∧ ∀ offset, offset ≠ -1 →
      ∃ c',
        minio.objects c' !! "top" = objs !! "top"
        ∧ match objs !! "top" with
          | None =>
              Driver.PutFile "/top" data offset (minio.mkClient objs [])
              = ((0, Some minio.NoSuchKey), c')
          | Some old =>
              offset ≠ len64 old →
              Driver.PutFile "/top" data offset (minio.mkClient objs [])
              = ((0, Some (Driver.unsupportedOffset offset (len64 old))), c')
          end.
Proof.
  intros objs data. apply (PutFile_offset objs "/top" data).
  - reflexivity.
  - vm_compute. reflexivity.
Defined.

(** C2, counterexample: a resumed upload (offset 0) to a path at which
    nothing is stored comes back with the error of [StatObject], the same
    value any caller of the store gets for a missing key, not with an
    "unsupported" error. *)
Lemma PutFile_resume_missing_object :
  (Driver.PutFile "/new.txt" (list_byte_of_string "test") 0
     (minio.mkClient ∅ [])).1
  = (0, Some (ErrorResponse "NoSuchKey"))
  ∧ (minio.StatObject "new.txt" (minio.mkClient ∅ [])).1
    = Fail (ErrorResponse "NoSuchKey").
Proof. split; vm_compute; reflexivity. Qed.

(** Where the newer driver does accept an offset (the size of what is
    stored), the sources are composed with the temporary object first.  The
    client refuses a first source of less than 5 MiB, so a resumed upload
    that brings less than this fails and leaves what was stored as it is. *)
Example PutFile_resume_small_part_refused :
  let c := minio.mkClient {["top" := list_byte_of_string "ab"]} [] in
  Driver.PutFile "/top" (list_byte_of_string "cd") 2 c
  = ((2, Some minio.InvalidArgument), c).
Proof. vm_compute. reflexivity. Qed.

(** With 5 MiB or more the composition goes through, and the new bytes end
    up in front of the old ones. *)
Lemma PutFile_resume_composes_new_before_old objs destPath data old :
  let p := Driver.buildMinioPath destPath in
  strings.blank p = false →
  objs !! p = Some old →
  minio.absMinPartSize ≤ len64 data →
  ∃ c',
    Driver.PutFile destPath data (len64 old) (minio.mkClient objs [])
    = ((len64 data, None), c')
    ∧ minio.objects c' !! p = Some (data ++ old)%list.
Proof.
  intros p Hname Hold Hsize. destruct (tempFile_key p) as [Hne Htmp].
  assert (p +:+ ".tmp" ≠ p) as Hne'.
  { intros Heq. apply (f_equal String.length) in Heq.
    rewrite string_length_app in Heq. simpl in Heq. lia. }
  eexists. split.
  - unfold Driver.PutFile. fold p.
    destruct (Z.eqb_spec (len64 old) (-1)) as [Hm|_];
      [pose proof (len64_nonneg old); lia|].
    run. rewrite (StatObject_healthy _ _ Hname), Hold.
    cbn [minio.info_of minio.Size]. rewrite Z.eqb_refl. cbn [negb].
    rewrite (PutObject_healthy _ _ _ (blank_tmp p)).
    unfold minio.NewDestinationInfo, minio.CheckValidObjectName.
    rewrite Hname. unfold minio.ComposeObject, minio.NewSourceInfo.
    rewrite bool_decide_eq_false_2 by done.
    cbn [minio.getProps]. run.
    cbn [minio.request minio.faults minio.objects].
    rewrite lookup_insert_eq.
    destruct (Z.ltb_spec (len64 data) minio.absMinPartSize) as [?|_]; [lia|].
    cbn [andb minio.request minio.faults minio.objects].
    rewrite lookup_insert_ne, Hold by done.
    rewrite bool_decide_eq_true_2 by done. rewrite andb_false_r.
    cbn [minio.request minio.faults minio.objects].
    unfold Driver.DeleteFile.
    rewrite (RemoveObject_healthy _ _ Htmp). reflexivity.
  - cbn [minio.objects concat]. rewrite lookup_delete_ne by done.
    rewrite lookup_insert_eq. by rewrite app_nil_r.
Qed.

(** ** Rename *)

Lemma CopyObject_spec dst src c err c' :
  minio.CopyObject dst src c = (err, c') →
  match err with
  | None =>
      ∃ data, minio.objects c !! src = Some data ∧ src ≠ dst
              ∧ minio.objects c' = <[dst := data]> (minio.objects c)
  | Some _ => minio.objects c' = minio.objects c
  end.
Proof.
  unfold minio.CopyObject. run. pose proof (request_objects c) as Hreq.
  destruct (minio.request c) as [[e|] c1]; simpl in *.
  { by intros [= <- <-]. }
  rewrite Hreq. destruct (minio.objects c !! src) as [data|] eqn:Hsrc.
  - destruct (String.eqb_spec src dst) as [->|Hne].
    + by intros [= <- <-].
    + intros [= <- <-]. exists data. simpl. by rewrite Hreq.
  - by intros [= <- <-].
Qed.

(** The two revisions carry the same [Rename]. *)
Lemma Rename_revisions fromPath toPath c :
  MinioDriver.Rename fromPath toPath c = Driver.Rename fromPath toPath c.
Proof. reflexivity. Qed.

(** What [Rename] leaves behind: on success the object has moved; on an
    error either nothing has changed (the copy was refused or failed) or only
    the destination was written (the removal failed). *)
Lemma Rename_cases fromPath toPath c err c' :
  Driver.Rename fromPath toPath c = (err, c') →
  let src := Driver.buildMinioPath fromPath in
  let dst := Driver.buildMinioPath toPath in
  match err with
  | None =>
      ∃ data, minio.objects c !! src = Some data ∧ src ≠ dst
              ∧ minio.objects c'
                = delete src (<[dst := data]> (minio.objects c))
  | Some _ =>
      minio.objects c' = minio.objects c
      ∨ ∃ data, minio.objects c !! src = Some data ∧ src ≠ dst
                ∧ minio.objects c' = <[dst := data]> (minio.objects c)
  end.
Proof.
  intros HR src dst. unfold Driver.Rename, minio.NewDestinationInfo in HR.
  fold src dst in HR. destruct (minio.CheckValidObjectName dst).
  { injection HR as <- <-. by left. }
  run. unfold minio.NewSourceInfo in HR.
  destruct (minio.CopyObject dst src c) as [[e|] c1] eqn:Hcopy;
    apply CopyObject_spec in Hcopy.
  { injection HR as <- <-. by left. }
  destruct Hcopy as (data & Hsrc & Hne & Hc1).
  apply RemoveObject_spec in HR. destruct err as [e|].
  - right. exists data. by rewrite HR.
  - exists data. by rewrite HR, Hc1.
Qed.

Lemma Stat_stored objs path data :
  strings.blank (Driver.buildMinioPath path) = false →
  objs !! Driver.buildMinioPath path = Some data →
  is_ok (Driver.Stat path (minio.mkClient objs [])).1 = true
  ∧ is_ok (MinioDriver.Stat path (minio.mkClient objs [])).1 = true.
Proof.
  intros Hname Hdata. unfold Driver.Stat, MinioDriver.Stat.
  destruct (String.eqb path "/"); [done|]. run.
  change (MinioDriver.buildMinioPath path) with (Driver.buildMinioPath path).
  by rewrite (StatObject_healthy _ _ Hname), Hdata.
Qed.

(** C3.  [Rename] either moves the object (it is stored at [toPath] and is
    gone from [fromPath]), or returns an error and leaves what was stored at
    [fromPath] where it was, so that [Stat] still finds it; an error of the
    copy step leaves the whole bucket as it was.  This holds for both
    revisions, whose [Rename] is the same. *)
Theorem Rename_atomic fromPath toPath c err c' :
  Driver.Rename fromPath toPath c = (err, c') →
  let src := Driver.buildMinioPath fromPath in
  let dst := Driver.buildMinioPath toPath in
  MinioDriver.Rename fromPath toPath c = (err, c')
  ∧ match err with
    | None =>
        ∃ data, minio.objects c !! src = Some data
                ∧ minio.objects c' !! dst = Some data
                ∧ minio.objects c' !! src = None
    | Some _ =>
        ((minio.CopyObject dst src c).1 ≠ None →
         minio.objects c' = minio.objects c)
        ∧ ∀ data,
            minio.objects c !! src = Some data →
            minio.objects c' !! src = Some data
            ∧ (strings.blank src = false →
               is_ok (Driver.Stat fromPath
                        (minio.mkClient (minio.objects c') [])).1 = true
               ∧ is_ok (MinioDriver.Stat fromPath
                          (minio.mkClient (minio.objects c') [])).1 = true)
    end.
Proof.
  intros HR src dst. split; [by rewrite Rename_revisions|].
  pose proof (Rename_cases _ _ _ _ _ HR) as Hcases. fold src dst in Hcases.
  destruct err as [e|].
  - split.
    + intros Hcopy. unfold Driver.Rename, minio.NewDestinationInfo in HR.
      fold src dst in HR. destruct (minio.CheckValidObjectName dst).
      { by injection HR as _ <-. }
      run. unfold minio.NewSourceInfo in HR.
      destruct (minio.CopyObject dst src c) as [[e'|] c1] eqn:Hc; [|done].
      apply CopyObject_spec in Hc. by injection HR as _ <-.
    + intros data Hdata.
      assert (minio.objects c' !! src = Some data) as Hsrc.
      { destruct Hcases as [->|(data' & _ & Hne & ->)]; [done|].
        by rewrite lookup_insert_ne. }
      split; [done|]. intros Hname. by apply (Stat_stored _ _ data).
  - destruct Hcases as (data & Hsrc & Hne & ->). exists data.
    split; [done|]. split.
    + by rewrite lookup_delete_ne, lookup_insert_eq.
    + apply lookup_delete_eq.
Qed.

Lemma Rename_atomic_witness :
  let c := minio.mkClient
             {["server_test.go" := list_byte_of_string "test"]} [] in
  let c' := minio.mkClient {["test.go" := list_byte_of_string "test"]} [] in
  MinioDriver.Rename "/server_test.go" "/test.go" c = (None, c')
  ∧ ∃ data, minio.objects c !! "server_test.go" = Some data
            ∧ minio.objects c' !! "test.go" = Some data
            ∧ minio.objects c' !! "server_test.go" = None.
Proof.
  intros c c'.
  apply (Rename_atomic "/server_test.go" "/test.go" c None c').
  vm_compute. reflexivity.
Defined.

(** A rename whose removal fails reports the error; the object is then
    stored under both keys. *)
Example Rename_removal_fails :
  let c := minio.mkClient
             {["server_test.go" := list_byte_of_string "test"]}
             [None; Some (ErrorResponse "SlowDown")] in
  let '(err, c') := Driver.Rename "/server_test.go" "/test.go" c in
  err = Some (ErrorResponse "SlowDown")
  ∧ minio.objects c' !! "server_test.go" = Some (list_byte_of_string "test")
  ∧ minio.objects c' !! "test.go" = Some (list_byte_of_string "test").
Proof. vm_compute. repeat split; reflexivity. Qed.

(** ** Stat *)

Lemma existsb_listing_HasPrefix objs q :
  existsb (λ object, strings.HasPrefix (minio.Key object) q)
    (minio.listing objs q false) = true
  ↔ ∃ key, is_Some (objs !! key) ∧ strings.HasPrefix key q = true.
Proof.
  rewrite existsb_exists. split.
  - intros (o & Hin%list_elem_of_In & _).
    apply elem_of_listing in Hin as (key & data & Hkey & Hp & _). eauto.
  - intros (key & [data Hkey] & Hp).
    assert (∃ o, o ∈ minio.listing objs q false) as [o Ho].
    { destruct (minio.commonPrefix q key) as [cp|] eqn:Hcp.
      - exists (minio.mkObjectInfo cp 0 None). apply elem_of_listing.
        exists key, data. by rewrite Hcp.
      - exists (minio.info_of key data). apply elem_of_listing.
        exists key, data. by rewrite Hcp. }
    exists o. split; [by apply list_elem_of_In|].
    by eapply listing_HasPrefix.
Qed.

(** [isDir] on a bucket that answers: there is a key that begins with the
    slash-terminated key of the path (the marker is such a key). *)
Lemma isDir_healthy objs path :
  ∃ b,
    Driver.isDir path (minio.mkClient objs [])
    = ((b, None), minio.mkClient objs [])
    ∧ (b = true
       ↔ ∃ key, is_Some (objs !! key)
                ∧ strings.HasPrefix key (Driver.buildMinioDir path) = true).
Proof.
  unfold Driver.isDir. run.
  rewrite (StatObject_healthy _ _ (buildMinioDir_not_blank path)).
  destruct (objs !! Driver.buildMinioDir path) as [data|] eqn:Hq.
  - eexists. split; [done|]. cbn [minio.info_of minio.Key].
    rewrite buildMinioDir_HasSuffix. split; [|done]. intros _.
    exists (Driver.buildMinioDir path). split; [by eexists|].
    apply HasPrefix_refl.
  - eexists. split; [done|]. apply existsb_listing_HasPrefix.
Qed.

Lemma buildMinioPath_idem path :
  strings.HasPrefix path "//" = false →
  Driver.buildMinioPath (Driver.buildMinioPath path)
  = Driver.buildMinioPath path.
Proof.
  unfold Driver.buildMinioPath, strings.TrimPrefix, strings.HasPrefix.
  destruct path as [|a [|b s]]; cbn [strings.strip].
  - done.
  - by destruct (Ascii.eqb "/" a) eqn:Ea; cbn [strings.strip]; rewrite ?Ea.
  - destruct (Ascii.eqb "/" a) eqn:Ea; cbn [strings.strip].
    + by destruct (Ascii.eqb "/" b).
    + by rewrite Ea.
Qed.

Lemma buildMinioDir_idem path :
  strings.HasPrefix path "//" = false →
  Driver.buildMinioDir (Driver.buildMinioPath path) = Driver.buildMinioDir path.
Proof.
  intros Hpath. unfold Driver.buildMinioDir.
  by rewrite (buildMinioPath_idem _ Hpath).
Qed.

(** [Stat] of the newer driver on a bucket that answers. *)
Lemma Stat_healthy objs path :
  path ≠ "/" →
  strings.HasPrefix path "//" = false →
  strings.blank (Driver.buildMinioPath path) = false →
  ∃ b,
    Driver.Stat path (minio.mkClient objs [])
    = (match objs !! Driver.buildMinioPath path with
       | Some data =>
           Ok (Driver.minioFileInfo.mk (Driver.buildMinioPath path)
                 (minio.info_of (Driver.buildMinioPath path) data)
                 (strings.HasSuffix (Driver.buildMinioPath path) "/"))
       | None =>
           if (b : bool) then Ok (Driver.minioFileInfo.mk path minio.noInfo true)
           else Fail (errorString "Not a directory")
       end, minio.mkClient objs [])
    ∧ (b = true
       ↔ ∃ key, is_Some (objs !! key)
                ∧ strings.HasPrefix key (Driver.buildMinioDir path) = true).
Proof.
  intros Hroot Hpath Hname. unfold Driver.Stat.
  destruct (String.eqb_spec path "/") as [?|_]; [done|]. run.
  rewrite (StatObject_healthy _ _ Hname).
  destruct (isDir_healthy objs (Driver.buildMinioPath path)) as (b & HisDir & Hb).
  rewrite (buildMinioDir_idem _ Hpath) in Hb. exists b. split; [|done].
  destruct (objs !! Driver.buildMinioPath path) as [data|]; [done|].
  rewrite HisDir. by destruct b.
Qed.

(** C10 (as amended).  In a bucket free of clashes, for a path other than
    "/" (absolute paths do not begin with two slashes): when an object is
    stored under the key of the path itself, [Stat] reports that object, as
    a directory only if the key ends in "/"; when none is, [Stat] reports a
    directory exactly when the marker is stored or some stored key begins
    with the slash-terminated key, and returns an error otherwise. *)
Theorem Stat_directory objs path :
  let p := Driver.buildMinioPath path in
  let q := Driver.buildMinioDir path in
  path ≠ "/" →
  strings.HasPrefix path "//" = false →
  strings.blank p = false →
  clash_free objs = true →
  match objs !! p with
  | Some data =>
      Driver.Stat path (minio.mkClient objs [])
      = (Ok (Driver.minioFileInfo.mk p (minio.info_of p data)
               (strings.HasSuffix p "/")),
         minio.mkClient objs [])
  | None =>
      ((is_Some (objs !! q)
        ∨ ∃ key, is_Some (objs !! key) ∧ strings.HasPrefix key q = true) →
       Driver.Stat path (minio.mkClient objs [])
       = (Ok (Driver.minioFileInfo.mk path minio.noInfo true),
          minio.mkClient objs []))
      ∧ (¬ (is_Some (objs !! q)
            ∨ ∃ key, is_Some (objs !! key) ∧ strings.HasPrefix key q = true) →
         Driver.Stat path (minio.mkClient objs [])
         = (Fail (errorString "Not a directory"), minio.mkClient objs []))
  end.
Proof.
  intros p q Hroot Hpath Hname _.
  destruct (Stat_healthy objs path Hroot Hpath Hname) as (b & -> & Hb).
  fold p q in Hb |- *. destruct (objs !! p) as [data|]; [done|]. split.
  - intros Hdir. assert (b = true) as ->; [|done]. apply Hb.
    destruct Hdir as [Hq|?]; [|done]. exists q. split; [done|].
    apply HasPrefix_refl.
  - intros Hdir. destruct b; [|done]. destruct Hdir. right. by apply Hb.
Qed.

Lemma Stat_directory_witness :
  let objs : gmap string (list Byte.byte) :=
    {["dir/a" := list_byte_of_string "x"]} in
  clash_free objs = true
  ∧ match objs !! "dir" with
    | Some data =>
        Driver.Stat "/dir" (minio.mkClient objs [])
        = (Ok (Driver.minioFileInfo.mk "dir" (minio.info_of "dir" data)
                 (strings.HasSuffix "dir" "/")),
           minio.mkClient objs [])
    | None =>
        ((is_Some (objs !! "dir/")
          ∨ ∃ key, is_Some (objs !! key)
                   ∧ strings.HasPrefix key "dir/" = true) →
         Driver.Stat "/dir" (minio.mkClient objs [])
         = (Ok (Driver.minioFileInfo.mk "/dir" minio.noInfo true),
            minio.mkClient objs []))
        ∧ (¬ (is_Some (objs !! "dir/")
              ∨ ∃ key, is_Some (objs !! key)
                       ∧ strings.HasPrefix key "dir/" = true) →
           Driver.Stat "/dir" (minio.mkClient objs [])
           = (Fail (errorString "Not a directory"), minio.mkClient objs []))
    end.
Proof.
  intros objs.
  assert (clash_free objs = true) as Hfree by (vm_compute; reflexivity).
  split; [exact Hfree|].
  apply (Stat_directory objs "/dir").
  - discriminate.
  - reflexivity.
  - reflexivity.
  - exact Hfree.
Defined.

(** C10, counterexample: with "dir" and "dir/a" both stored, a clash, a
    stored key begins with "dir/", yet [Stat "/dir"] reports the object
    "dir", which is no directory. *)
Lemma Stat_object_hides_directory :
  let objs : gmap string (list Byte.byte) :=
    <["dir" := list_byte_of_string "x"]>
      {["dir/a" := list_byte_of_string "y"]} in
  is_Some (objs !! "dir/a")
  ∧ strings.HasPrefix "dir/a" (Driver.buildMinioDir "/dir") = true
  ∧ (Driver.Stat "/dir" (minio.mkClient objs [])).1
    = Ok (Driver.minioFileInfo.mk "dir" (minio.mkObjectInfo "dir" 1 None)
            false).
Proof. repeat split; [by eexists|vm_compute; reflexivity..]. Qed.

Lemma Stat_root c :
  Driver.Stat "/" c = (Ok (Driver.minioFileInfo.mk "/" minio.noInfo true), c)
  ∧ MinioDriver.Stat "/" c
    = (Ok (MinioDriver.minioFileInfo.mk "/" minio.noInfo true), c).
Proof. done. Qed.

(** The newer driver does what C8 asks of a path at which nothing is stored
    and below which nothing is stored. *)
Lemma Stat_not_found objs path :
  path ≠ "/" →
  strings.HasPrefix path "//" = false →
  strings.blank (Driver.buildMinioPath path) = false →
  objs !! Driver.buildMinioPath path = None →
  (∀ key, is_Some (objs !! key) →
          strings.HasPrefix key (Driver.buildMinioDir path) = false) →
  Driver.Stat path (minio.mkClient objs [])
  = (Fail (errorString "Not a directory"), minio.mkClient objs []).
Proof.
  intros Hroot Hpath Hname Hobj Hdir.
  destruct (Stat_healthy objs path Hroot Hpath Hname) as (b & -> & Hb).
  rewrite Hobj. destruct b; [|done].
  destruct Hb as [(key & Hkey & Hp) _]; [done|].
  specialize (Hdir _ Hkey). congruence.
Qed.

(** C8, the older revision at a failing input: only "foobar" is stored, so
    no object and no directory corresponds to "/foo"; the newer driver
    answers with an error, the older revision reports a directory. *)
Lemma MinioDriver_Stat_sibling_prefix :
  let objs : gmap string (list Byte.byte) :=
    {["foobar" := list_byte_of_string "x"]} in
  objs !! "foo" = None
  ∧ objs !! "foo/" = None
  ∧ (Driver.Stat "/foo" (minio.mkClient objs [])).1
    = Fail (errorString "Not a directory")
  ∧ (MinioDriver.Stat "/foo" (minio.mkClient objs [])).1
    = Ok (MinioDriver.minioFileInfo.mk "/foo" minio.noInfo true).
Proof. repeat split; vm_compute; reflexivity. Qed.

(** ** Removing a directory *)

(** What the loop of [DeleteDir] leaves of the bucket when it ends without
    an error: the listed keys are gone, all others are as before. *)
Lemma DeleteDir_range_ok objectCh c c' :
  Driver.DeleteDir_range objectCh c = (None, c') →
  ∀ key,
    minio.objects c' !! key
    = if decide (key ∈ minio.Key <$> objectCh) then None
      else minio.objects c !! key.
Proof.
  revert c. induction objectCh as [|object objectCh IH]; intros c;
    cbn [Driver.DeleteDir_range].
  - intros [= <-] key. destruct (decide _) as [Hin|_]; [|done].
    by apply elem_of_nil in Hin.
  - destruct (minio.Err object); [done|]. run.
    destruct (minio.RemoveObject (minio.Key object) c) as [[e|] c1] eqn:Hrm;
      [done|].
    apply RemoveObject_spec in Hrm. intros HR key.
    rewrite (IH _ HR key), Hrm. rewrite fmap_cons.
    destruct (decide (key ∈ minio.Key <$> objectCh)) as [Hin|Hin].
    + rewrite decide_True; [done|]. by apply list_elem_of_further.
    + destruct (decide (key = minio.Key object)) as [->|Hne].
      * rewrite decide_True by apply list_elem_of_here.
        apply lookup_delete_eq.
      * rewrite decide_False.
        -- by apply lookup_delete_ne.
        -- by intros [?|?]%elem_of_cons.
Qed.

(** The newer driver does what C4 asks: after a [DeleteDir] that returns
    nil, under any schedule of faults, no key that begins with the key of the
    directory is left. *)
Lemma DeleteDir_removes_prefix path c c' key :
  Driver.DeleteDir path c = (None, c') →
  strings.HasPrefix key (Driver.buildMinioPath path) = true →
  minio.objects c' !! key = None.
Proof.
  unfold Driver.DeleteDir, minio.ListObjects. run.
  pose proof (request_objects c) as Hreq.
  destruct (minio.request c) as [[e|] c1]; simpl in *; [done|].
  intros HR Hp. rewrite (DeleteDir_range_ok _ _ _ HR key).
  destruct (decide _) as [Hin|Hin]; [done|].
  destruct (minio.objects c1 !! key) as [data|] eqn:Hkey; [|done].
  destruct Hin. apply list_elem_of_fmap. exists (minio.info_of key data).
  split; [done|]. apply elem_of_listing_recursive. eauto.
Qed.

Lemma buildMinioPath_HasPrefix d path :
  strings.HasPrefix d path = true →
  strings.HasPrefix (Driver.buildMinioPath d) (Driver.buildMinioPath path)
  = true.
Proof.
  intros [rest ->]%HasPrefix_true.
  unfold Driver.buildMinioPath, strings.TrimPrefix.
  destruct path as [|a path]; [by rewrite string_app_nil_l|].
  rewrite string_app_cons. cbn [strings.strip].
  destruct (Ascii.eqb "/" a); cbn [strings.strip].
  - apply HasPrefix_app.
  - rewrite <- string_app_cons. apply HasPrefix_app.
Qed.

(** ... and [Stat] then fails on every path at or below the directory. *)
Lemma Stat_after_DeleteDir path c c' d :
  Driver.DeleteDir path c = (None, c') →
  strings.HasPrefix d path = true →
  d ≠ "/" →
  strings.HasPrefix d "//" = false →
  (Driver.Stat d (minio.mkClient (minio.objects c') [])).1
  = Fail (errorString "Not a directory").
Proof.
  intros HR Hd Hroot Hslash.
  assert (∀ key, strings.HasPrefix key (Driver.buildMinioPath d) = true →
                 minio.objects c' !! key = None) as Hgone.
  { intros key Hkey. apply (DeleteDir_removes_prefix _ _ _ _ HR).
    eapply HasPrefix_trans; [done|]. by apply buildMinioPath_HasPrefix. }
  unfold Driver.Stat. destruct (String.eqb_spec d "/") as [?|_]; [done|].
  run.
  destruct (minio.StatObject (Driver.buildMinioPath d) _) as [[info|e] c1]
    eqn:Hstat.
  { apply StatObject_Ok in Hstat as (data & Hdata & _). simpl in Hdata.
    rewrite Hgone in Hdata; [done|apply HasPrefix_refl]. }
  pose proof (StatObject_objects (Driver.buildMinioPath d)
                (minio.mkClient (minio.objects c') [])) as Hc1.
  rewrite Hstat in Hc1. simpl in Hc1.
  assert (c1 = minio.mkClient (minio.objects c') []) as ->.
  { revert Hstat. unfold minio.StatObject.
    destruct (minio.CheckValidObjectName _); [by intros [= _ <-]|].
    run. simpl. by destruct (minio.objects c' !! _); intros [= _ <-]. }
  destruct (isDir_healthy (minio.objects c') (Driver.buildMinioPath d))
    as (b & -> & Hb).
  rewrite (buildMinioDir_idem _ Hslash) in Hb.
  destruct b; [|done]. destruct Hb as [(key & [data Hkey] & Hp) _]; [done|].
  rewrite Hgone in Hkey; [done|].
  eapply HasPrefix_trans; [done|].
  unfold Driver.buildMinioDir.
  destruct (strings.HasSuffix _ _); simpl;
    [apply HasPrefix_refl|apply HasPrefix_app].
Qed.

(** The prefix that [DeleteDir] lists is the key of the directory without a
    closing "/": objects next to the directory whose names continue its name
    go as well. *)
Example DeleteDir_removes_continued_names :
  let objs : gmap string (list Byte.byte) :=
    <["dir/a" := list_byte_of_string "x"]>
      {["dirx" := list_byte_of_string "z"]} in
  Driver.DeleteDir "/dir" (minio.mkClient objs [])
  = (None, minio.mkClient ∅ []).
Proof. vm_compute. reflexivity. Qed.

(** C4, the older revision at a failing input: [DeleteDir "/dir"] lists
    without recursion, is shown the rolled-up prefix "dir/" only, removes
    nothing and returns nil; [Stat] still finds the descendants.  The newer
    driver removes them. *)
Lemma MinioDriver_DeleteDir_leaves_descendants :
  let objs : gmap string (list Byte.byte) :=
    <["dir/a" := list_byte_of_string "x"]>
      {["dir/sub/b" := list_byte_of_string "y"]} in
  MinioDriver.DeleteDir "/dir" (minio.mkClient objs [])
  = (None, minio.mkClient objs [])
  ∧ is_ok (MinioDriver.Stat "/dir/a" (minio.mkClient objs [])).1 = true
  ∧ is_ok (MinioDriver.Stat "/dir/sub/b" (minio.mkClient objs [])).1 = true
  ∧ Driver.DeleteDir "/dir" (minio.mkClient objs [])
    = (None, minio.mkClient ∅ []).
Proof. repeat split; vm_compute; reflexivity. Qed.

(** ** Listing a directory *)

Lemma upto_delimiter_segment rest :
  segment rest = default rest (minio.upto_delimiter rest).
Proof.
  induction rest as [|a rest IH]; [done|]. cbn [segment minio.upto_delimiter].
  destruct (Ascii.eqb a "/"); [done|]. rewrite IH.
  by destruct (minio.upto_delimiter rest).
Qed.

Lemma upto_delimiter_Some rest seg :
  minio.upto_delimiter rest = Some seg →
  seg ≠ "" ∧ minio.upto_delimiter seg = Some seg.
Proof.
  revert seg. induction rest as [|a rest IH]; intros seg; [done|].
  cbn [minio.upto_delimiter]. destruct (Ascii.eqb a "/") eqn:Ea.
  - intros [= <-]. split; [done|]. reflexivity.
  - destruct (minio.upto_delimiter rest) as [seg'|]; [|done].
    intros [= <-]. split; [done|]. cbn [minio.upto_delimiter].
    rewrite Ea. by destruct (IH seg' eq_refl) as [_ ->].
Qed.

Lemma commonPrefix_app prefix rest :
  minio.commonPrefix prefix (prefix +:+ rest)
  = (λ seg, prefix +:+ seg) <$> minio.upto_delimiter rest.
Proof.
  unfold minio.commonPrefix. rewrite strip_app. simpl.
  by destruct (minio.upto_delimiter rest).
Qed.

(** Every entry of a listing has a key of its own. *)
Lemma NoDup_listing objs prefix :
  NoDup (minio.Key <$> minio.listing objs prefix false).
Proof.
  unfold minio.listing. rewrite fmap_app, <- !list_fmap_compose.
  apply NoDup_app. split; [|split].
  - eapply sublist_NoDup; [apply (NoDup_in_key_order objs)|].
    apply fmap_sublist. etrans; apply sublist_filter.
  - intros key [[k d] [-> [Hcp _]%list_elem_of_filter]]%list_elem_of_fmap.
    intros [cp [E Hin]]%list_elem_of_fmap. simpl in *.
    apply elem_of_remove_dups, list_elem_of_omap in Hin
      as [[k' d'] [[Hp _]%list_elem_of_filter Hcp']].
    simpl in *. apply Is_true_true, HasPrefix_true in Hp as [rest ->].
    rewrite commonPrefix_app in Hcp'.
    destruct (minio.upto_delimiter rest) as [seg|] eqn:Hseg; [|done].
    injection Hcp' as <-. rewrite E, commonPrefix_app in Hcp.
    apply upto_delimiter_Some in Hseg as [_ Hseg]. by rewrite Hseg in Hcp.
  - apply (NoDup_fmap_2_strong _); [|apply NoDup_remove_dups].
    by intros ???? [=].
Qed.

(** The loop of [ListDir] under a callback that only collects: the names of
    the entries other than the directory itself, in the order delivered. *)
Lemma ListDir_range_collect p objectCh seen :
  (∀ o, o ∈ objectCh → minio.Err o = None) →
  Driver.ListDir_range p objectCh collect seen
  = (None,
     (seen ++ ((λ key, strings.TrimPrefix key p)
                 <$> filter (λ key, key ≠ p) (minio.Key <$> objectCh)))%list).
Proof.
  revert seen. induction objectCh as [|o objectCh IH]; intros seen Herr.
  { simpl. by rewrite app_nil_r. }
  cbn [Driver.ListDir_range]. rewrite (Herr o) by apply list_elem_of_here.
  rewrite fmap_cons, filter_cons.
  destruct (String.eqb_spec (minio.Key o) p) as [Heq|Hne].
  - rewrite decide_False by (by intros ?).
    apply IH. intros ??. by apply Herr, list_elem_of_further.
  - rewrite decide_True by done. unfold collect at 1. cbn [fst snd].
    rewrite IH by (intros ??; by apply Herr, list_elem_of_further).
    by rewrite fmap_cons, <- (assoc_L (++)).
Qed.

(** The newer driver does what C6 asks.  On a bucket that answers, [ListDir]
    shows the callback every immediate child of the directory, and each of
    them once. *)
Lemma ListDir_children objs path :
  let dir := if String.eqb (Driver.buildMinioDir path) "/" then ""
             else Driver.buildMinioDir path in
  ∃ seen,
    Driver.ListDir path collect [] (minio.mkClient objs [])
    = ((None, seen), minio.mkClient objs [])
    ∧ NoDup seen
    ∧ ∀ name, name ∈ seen ↔ child objs dir name.
Proof.
  intros dir. unfold Driver.ListDir. fold dir. run.
  rewrite ListObjects_healthy.
  rewrite ListDir_range_collect by (by intros o ?%listing_Err).
  eexists. split; [done|]. rewrite app_nil_l. split.
  - apply NoDup_fmap_2_strong; [|apply NoDup_filter, NoDup_listing].
    intros k1 k2 [_ Hk1]%list_elem_of_filter [_ Hk2]%list_elem_of_filter.
    apply list_elem_of_fmap in Hk1 as [o1 [-> Ho1%listing_HasPrefix]].
    apply list_elem_of_fmap in Hk2 as [o2 [-> Ho2%listing_HasPrefix]].
    apply HasPrefix_true in Ho1 as [r1 ->]. apply HasPrefix_true in Ho2 as [r2 ->].
    rewrite !TrimPrefix_app. by intros ->.
  - intros name. rewrite list_elem_of_fmap. unfold child. split.
    + intros (key & -> & [Hne Hin]%list_elem_of_filter).
      apply list_elem_of_fmap in Hin as [o [-> Ho]].
      apply elem_of_listing in Ho as (k & data & Hk & Hp & Ho).
      apply HasPrefix_true in Hp as [rest ->]. exists (dir +:+ rest), rest.
      rewrite commonPrefix_app, upto_delimiter_segment in *.
      destruct (minio.upto_delimiter rest) as [seg|] eqn:Hseg;
        simpl in Ho; subst o; simpl in *; rewrite TrimPrefix_app.
      * split; [by eexists|]. split; [done|]. split; [|done].
        by intros ->.
      * split; [by eexists|]. split; [done|]. split; [|done].
        intros ->. by rewrite string_app_nil_r in Hne.
    + intros (key & rest & [data Hkey] & -> & Hrest & ->).
      rewrite upto_delimiter_segment.
      destruct (minio.upto_delimiter rest) as [seg|] eqn:Hseg; simpl.
      * exists (dir +:+ seg). rewrite TrimPrefix_app. split; [done|].
        apply list_elem_of_filter. split.
        -- apply upto_delimiter_Some in Hseg as [Hne _]. intros E.
           rewrite <- (string_app_nil_r dir) in E at 2.
           by apply (inj (String.append dir)) in E.
        -- apply list_elem_of_fmap. exists (minio.mkObjectInfo (dir +:+ seg) 0 None).
           split; [done|]. apply elem_of_listing. exists (dir +:+ rest), data.
           rewrite commonPrefix_app, Hseg. by rewrite HasPrefix_app.
      * exists (dir +:+ rest). rewrite TrimPrefix_app. split; [done|].
        apply list_elem_of_filter. split.
        -- intros E. rewrite <- (string_app_nil_r dir) in E at 2.
           by apply (inj (String.append dir)) in E.
        -- apply list_elem_of_fmap. exists (minio.info_of (dir +:+ rest) data).
           split; [done|]. apply elem_of_listing. exists (dir +:+ rest), data.
           rewrite commonPrefix_app, Hseg. by rewrite HasPrefix_app.
Qed.

Section ListDir_errors.
Context {S : Type} (p : string)
        (callback : Driver.minioFileInfo.t → S → option error * S).

Lemma ListDir_range_app l1 l2 s :
  Driver.ListDir_range p (l1 ++ l2) callback s
  = match Driver.ListDir_range p l1 callback s with
    | (Some e, s') => (Some e, s')
    | (None, s') => Driver.ListDir_range p l2 callback s'
    end.
Proof.
  revert s. induction l1 as [|o l1 IH]; intros s; [done|].
  rewrite <- app_comm_cons. cbn [Driver.ListDir_range].
  destruct (minio.Err o); [done|].
  destruct (String.eqb (minio.Key o) p); [apply IH|].
  destruct (callback _ s) as [[e|] s']; [done|apply IH].
Qed.

(** The first entry that carries an error ends the loop: the error is
    returned, and nothing that the channel would deliver after it reaches
    the callback. *)
Lemma ListDir_range_enumeration_error before object after e s s' :
  Driver.ListDir_range p before callback s = (None, s') →
  minio.Err object = Some e →
  Driver.ListDir_range p (before ++ object :: after) callback s
  = (Some e, s').
Proof.
  intros Hbefore Herr. rewrite ListDir_range_app, Hbefore.
  cbn [Driver.ListDir_range]. by rewrite Herr.
Qed.

(** So does the first error of the callback. *)
Lemma ListDir_range_callback_error before object after e s s' s'' :
  Driver.ListDir_range p before callback s = (None, s') →
  minio.Err object = None →
  minio.Key object ≠ p →
  callback
    (Driver.minioFileInfo.mk (strings.TrimPrefix (minio.Key object) p)
       object (strings.HasSuffix (minio.Key object) "/")) s'
  = (Some e, s'') →
  Driver.ListDir_range p (before ++ object :: after) callback s
  = (Some e, s'').
Proof.
  intros Hbefore Herr Hkey Hcb. rewrite ListDir_range_app, Hbefore.
  cbn [Driver.ListDir_range]. rewrite Herr.
  destruct (String.eqb_spec (minio.Key object) p) as [?|_]; [done|].
  by rewrite Hcb.
Qed.

(** A listing request that fails is reported by [ListDir] before the
    callback has seen anything. *)
Lemma ListDir_request_fails path objs e fs s :
  Driver.ListDir path callback s (minio.mkClient objs (Some e :: fs))
  = ((Some e, s), minio.mkClient objs fs).
Proof. reflexivity. Qed.

End ListDir_errors.

(** C6, the older revision at a failing input: with "dir/a", "dir/b" and
    "dirx" stored, [ListDir "/dir"] asks for the prefix "dir" and is shown
    the object "dirx" and the one rolled-up entry "dir/": the callback is
    called for an object that lies next to the directory and for the
    directory itself, and for neither of its children.  The newer driver
    shows "a" and "b". *)
Lemma MinioDriver_ListDir_shows_directory_itself :
  let objs : gmap string (list Byte.byte) :=
    <["dir/a" := list_byte_of_string "x"]>
      (<["dir/b" := list_byte_of_string "y"]>
         {["dirx" := list_byte_of_string "z"]}) in
  (MinioDriver.ListDir "/dir" collect_old [] (minio.mkClient objs [])).1
  = (None, ["dirx"; "dir/"])
  ∧ (Driver.ListDir "/dir" collect [] (minio.mkClient objs [])).1
    = (None, ["a"; "b"]).
Proof. split; vm_compute; reflexivity. Qed.

(** ** Login *)

(** C7.  A login attempt ([USER], then [PASS]), from any state of the
    session and for any notifiers: [BeforeLoginUser] fires, then the
    credentials are checked, then [AfterUserLogin] fires, once, with the
    result of the check; every notifier has received exactly these two hooks,
    in this order.  A check that fails logs nobody in: [PASS] is answered
    with a failure, a session that was not logged in is [Unauthenticated]
    afterwards, and a session that was logged in keeps its user.  A check
    that succeeds logs the named user in. *)
Theorem login_hooks {N : Type} `{Notifier N} {A : Type} `{Session.Auth A}
    (auth : A) (name pass : string) (s : Session.t) :
  let answer := (Session.PASS auth pass (Session.USER name s)).1 in
  let s' := (Session.PASS auth pass (Session.USER name s)).2 in
  let ok := (Session.CheckPasswd auth name pass).1 in
  let err := (Session.CheckPasswd auth name pass).2 in
  Session.history s'
  = (Session.history s
     ++ [Session.FiredBeforeLoginUser name;
         Session.CheckedPasswd name pass;
         Session.FiredAfterUserLogin name pass ok err])%list
  ∧ Session.notifiers s'
    = (λ n, AfterUserLogin (BeforeLoginUser n name) name pass ok err)
        <$> Session.notifiers s
  ∧ (ok = false ∨ err ≠ None →
     answer = false
     ∧ Session.user s' = Session.user s
     ∧ (Session.user s = None → Session.state s' = Session.Unauthenticated))
  ∧ (ok = true → err = None →
     answer = true ∧ Session.state s' = Session.Authenticated name).
Proof.
  unfold Session.PASS, Session.USER, Session.checkPasswd,
    Session.fireAfterUserLogin, Session.fireBeforeLoginUser, Session.state.
  cbn [Session.reqUser Session.user Session.notifiers Session.history].
  destruct (Session.CheckPasswd auth name pass) as [ok err].
  cbn [fst snd].
  assert (∀ (l : list Session.event) a b c,
            ((l ++ [a]) ++ [b]) ++ [c] = l ++ [a; b; c])%list as Hhist.
  { intros l a b c. by rewrite <- !(assoc_L (++)%list). }
  destruct err as [e|]; [|destruct ok];
    cbn [fst snd Session.reqUser Session.user Session.notifiers
         Session.history];
    (split; [apply Hhist|]);
    (split; [by rewrite <- list_fmap_compose|]); split.
  - intros _. split; [done|]. split; [done|]. by intros ->.
  - by intros ? [=].
  - by intros [[=]|?].
  - done.
  - intros _. split; [done|]. split; [done|]. by intros ->.
  - by intros [=].
Qed.

(** The scenario of [TestNotification]: the login as admin/admin succeeds,
    the one with password 1111 on the same connection fails, and after each
    of them the last two actions of the mock are the two login hooks; the
    session is still logged in as admin after the second one (the test
    stores a file next).  The failed login on a fresh connection leaves it
    unauthenticated. *)
Example TestNotification_login :
  let auth := Session.mkSimpleAuth "admin" "admin" in
  let s0 := Session.mk None None [mkMock []] [] in
  let '(ok1, s1) := Session.Login auth "admin" "admin" s0 in
  let '(ok2, s2) := Session.Login auth "admin" "1111" s1 in
  let '(ok3, s3) := Session.Login auth "admin" "1111" s0 in
  ok1 = true
  ∧ forallb (λ mock, assetMockNotifier mock ["BeforeLoginUser"; "AfterUserLogin"])
      (Session.notifiers s1) = true
  ∧ ok2 = false
  ∧ Session.state s2 = Session.Authenticated "admin"
  ∧ forallb (λ mock, assetMockNotifier mock ["BeforeLoginUser"; "AfterUserLogin"])
      (Session.notifiers s2) = true
  ∧ actions <$> Session.notifiers s2
    = [["BeforeLoginUser"; "AfterUserLogin";
        "BeforeLoginUser"; "AfterUserLogin"]]
  ∧ ok3 = false
  ∧ Session.state s3 = Session.Unauthenticated.
Proof. vm_compute. repeat split; reflexivity. Qed.

(** ** What reading leaves behind *)

Lemma ListObjects_objects prefix recursive c :
  minio.objects (minio.ListObjects prefix recursive c).2 = minio.objects c.
Proof.
  unfold minio.ListObjects. run. pose proof (request_objects c).
  by destruct (minio.request c) as [[e|] c'].
Qed.

Lemma fetchInfo_objects o c :
  minio.objects (minio.fetchInfo o c).2 = minio.objects c.
Proof.
  unfold minio.fetchInfo. destruct (minio.objectInfoSet o); [done|]. run.
  pose proof (StatObject_objects (minio.objectName o) c).
  by destruct (minio.StatObject _ c) as [[info|e] c'].
Qed.

Lemma Seek_objects o offset c :
  minio.objects (minio.Seek o offset c).2 = minio.objects c.
Proof.
  unfold minio.Seek. destruct (offset <? 0); [done|]. run.
  pose proof (fetchInfo_objects o c).
  destruct (minio.fetchInfo o c) as [[o'|e] c']; [|done].
  by destruct (_ && _).
Qed.

Lemma Object_Stat_objects o c :
  minio.objects (minio.Stat o c).2 = minio.objects c.
Proof.
  unfold minio.Stat. run. pose proof (fetchInfo_objects o c).
  by destruct (minio.fetchInfo o c) as [[o'|e] c'].
Qed.

Lemma isDir_objects path c :
  minio.objects (Driver.isDir path c).2 = minio.objects c.
Proof.
  unfold Driver.isDir. run.
  pose proof (StatObject_objects (Driver.buildMinioDir path) c) as H1.
  destruct (minio.StatObject _ c) as [[info|e] c1]; [done|].
  pose proof (ListObjects_objects (Driver.buildMinioDir path) false c1) as H2.
  destruct (minio.ListObjects _ _ c1) as [objectCh c2]. simpl in *. congruence.
Qed.

(** [Stat], [ListDir] and [GetFile] of the newer driver remove and store
    nothing, whatever the path, the offset, the callback and the faults. *)
Theorem Driver_reading_keeps_bucket {S : Type} path offset
    (callback : Driver.minioFileInfo.t → S → option error * S) s c :
  minio.objects (Driver.Stat path c).2 = minio.objects c
  ∧ minio.objects (Driver.ListDir path callback s c).2 = minio.objects c
  ∧ minio.objects (Driver.GetFile path offset c).2 = minio.objects c.
Proof.
  split; [|split].
  - unfold Driver.Stat. destruct (String.eqb path "/"); [done|]. run.
    pose proof (StatObject_objects (Driver.buildMinioPath path) c) as H1.
    destruct (minio.StatObject _ c) as [[info|e] c1]; [done|].
    pose proof (isDir_objects (Driver.buildMinioPath path) c1) as H2.
    destruct (Driver.isDir _ c1) as [[b err] c2]. simpl in *.
    destruct err; [|destruct b]; simpl; congruence.
  - unfold Driver.ListDir. run.
    match goal with
    | |- context [minio.ListObjects ?p false c] =>
        pose proof (ListObjects_objects p false c) as H1;
        by destruct (minio.ListObjects p false c)
    end.
  - unfold Driver.GetFile. destruct (minio.GetObject _) as [o|e]; [|done].
    run. pose proof (Seek_objects o offset c) as H1.
    destruct (minio.Seek o offset c) as [[o1 [n err]] c1].
    destruct err; [done|].
    pose proof (Object_Stat_objects o1 c1) as H2.
    destruct (minio.Stat o1 c1) as [[o2 [info|e]] c2]; simpl in *; congruence.
Qed.

(** So do [Stat], [ListDir] and [GetFile] of the older revision, and its
    [MakeDir] and [ChangeDir]. *)
Theorem MinioDriver_reading_keeps_bucket {S : Type} path offset
    (callback : MinioDriver.minioFileInfo.t → S → option error * S) s c :
  minio.objects (MinioDriver.Stat path c).2 = minio.objects c
  ∧ minio.objects (MinioDriver.ListDir path callback s c).2 = minio.objects c
  ∧ minio.objects (MinioDriver.GetFile path offset c).2 = minio.objects c
  ∧ (MinioDriver.MakeDir path c).2 = c
  ∧ (MinioDriver.ChangeDir path c).2 = c.
Proof.
  split; [|split; [|split; [|done]]].
  - unfold MinioDriver.Stat. destruct (String.eqb path "/"); [done|]. run.
    pose proof (StatObject_objects (MinioDriver.buildMinioPath path) c) as H1.
    destruct (minio.StatObject _ c) as [[info|e] c1]; [done|].
    unfold MinioDriver.isDir. run.
    pose proof (ListObjects_objects (MinioDriver.buildMinioPath path) false c1)
      as H2.
    destruct (minio.ListObjects _ _ c1) as [[|o objectCh] c2]; simpl in *;
      [congruence|].
    destruct (minio.Err o); simpl; congruence.
  - unfold MinioDriver.ListDir. run.
    pose proof (ListObjects_objects (MinioDriver.buildMinioPath path) false c).
    by destruct (minio.ListObjects _ _ c).
  - unfold MinioDriver.GetFile. destruct (0 <? offset); [done|].
    destruct (minio.GetObject _) as [o|e]; [|done]. run.
    pose proof (Object_Stat_objects o c) as H1.
    by destruct (minio.Stat o c) as [[o1 [info|e]] c1].
Qed.

(** [isDir] of the newer driver never returns an error, so whatever goes
    wrong in [Stat], a failed request included, comes back as "Not a
    directory". *)
Theorem Stat_error_is_Not_a_directory path c e c' :
  Driver.Stat path c = (Fail e, c') → e = errorString "Not a directory".
Proof.
  unfold Driver.Stat. destruct (String.eqb path "/"); [done|]. run.
  destruct (minio.StatObject _ c) as [[info|e1] c1]; [done|].
  unfold Driver.isDir. run.
  destruct (minio.StatObject _ c1) as [[info|e2] c2].
  - destruct (strings.HasSuffix _ _); [done|]. by intros [= <- _].
  - destruct (minio.ListObjects _ _ c2) as [objectCh c3].
    destruct (existsb _ _); [done|]. by intros [= <- _].
Qed.

(** A file that is stored is reported so when the first request fails. *)
Lemma Stat_error_is_Not_a_directory_witness :
  let c := minio.mkClient {["top" := list_byte_of_string "t"]}
             [Some (ErrorResponse "SlowDown")] in
  let c' := minio.mkClient {["top" := list_byte_of_string "t"]} [] in
  Driver.Stat "/top" c = (Fail (errorString "Not a directory"), c')
  ∧ errorString "Not a directory" = errorString "Not a directory".
Proof.
  intros c c'.
  assert (Driver.Stat "/top" c = (Fail (errorString "Not a directory"), c'))
    as HS by (vm_compute; reflexivity).
  split; [exact HS|].
  exact (Stat_error_is_Not_a_directory "/top" c _ c' HS).
Defined.

(** ** Operations one after the other *)

Lemma MakeDir_healthy objs path :
  Driver.MakeDir path (minio.mkClient objs [])
  = (None, minio.mkClient (<[Driver.buildMinioDir path := []]> objs) []).
Proof.
  unfold Driver.MakeDir, minio.PutObject, minio.CheckValidObjectName.
  by rewrite buildMinioDir_not_blank.
Qed.

Lemma PutFile_healthy objs path data :
  strings.blank (Driver.buildMinioPath path) = false →
  Driver.PutFile path data (-1) (minio.mkClient objs [])
  = ((len64 data, None),
     minio.mkClient (<[Driver.buildMinioPath path := data]> objs) []).
Proof. intros Hname. unfold Driver.PutFile. by apply PutObject_healthy. Qed.



(** [MakeDir] on a directory whose marker is there succeeds and changes
    nothing. *)
Theorem MakeDir_existing objs path :
  objs !! Driver.buildMinioDir path = Some [] →
  Driver.MakeDir path (minio.mkClient objs [])
  = (None, minio.mkClient objs []).
Proof. intros Hq. rewrite MakeDir_healthy. by rewrite insert_id. Qed.

Lemma MakeDir_existing_witness :
  Driver.MakeDir "/src" (minio.mkClient {["src/" := []]} [])
  = (None, minio.mkClient {["src/" := []]} []).
Proof. apply (MakeDir_existing {["src/" := []]} "/src"). reflexivity. Defined.

(** What [PutFile] has stored under the key of a file that clashes with
    nothing stored, [Stat] finds, in both revisions: under the key of the path as its name, with the size of
    what was uploaded, and not as a directory. *)
Theorem PutFile_then_Stat objs path data :
  file_key (Driver.buildMinioPath path) = true →
  clash_free (<[Driver.buildMinioPath path := data]> objs) = true →
  let c' := (Driver.PutFile path data (-1) (minio.mkClient objs [])).2 in
  Driver.Stat path c'
  = (Ok (Driver.minioFileInfo.mk (Driver.buildMinioPath path)
           (minio.mkObjectInfo (Driver.buildMinioPath path) (len64 data) None)
           false), c')
  ∧ MinioDriver.Stat path c'
    = (Ok (MinioDriver.minioFileInfo.mk (Driver.buildMinioPath path)
             (minio.mkObjectInfo (Driver.buildMinioPath path) (len64 data)
                None) false), c').
Proof.
  intros Hfile _ c'. pose proof (file_key_not_blank _ Hfile) as Hname.
  pose proof (file_key_no_slash _ Hfile) as Hslash.
  unfold c'. rewrite (PutFile_healthy _ _ _ Hname).
  cbn [snd]. unfold Driver.Stat, MinioDriver.Stat.
  destruct (String.eqb_spec path "/") as [->|_]; [done|]. run.
  change (MinioDriver.buildMinioPath path) with (Driver.buildMinioPath path).
  rewrite (StatObject_healthy _ _ Hname), lookup_insert_eq.
  cbn [minio.info_of minio.Key]. by rewrite Hslash.
Qed.

Lemma PutFile_then_Stat_witness :
  let c' := (Driver.PutFile "/server_test.go" (list_byte_of_string "test")
               (-1) (minio.mkClient ∅ [])).2 in
  Driver.Stat "/server_test.go" c'
  = (Ok (Driver.minioFileInfo.mk "server_test.go"
           (minio.mkObjectInfo "server_test.go" 4 None) false), c')
  ∧ MinioDriver.Stat "/server_test.go" c'
    = (Ok (MinioDriver.minioFileInfo.mk "server_test.go"
             (minio.mkObjectInfo "server_test.go" 4 None) false), c').
Proof.
  apply (PutFile_then_Stat ∅ "/server_test.go" (list_byte_of_string "test")).
  - reflexivity.
  - vm_compute. reflexivity.
Defined.

(** [DeleteFile] undoes an upload, under the key of a file that clashes
    with nothing stored, to a path at which nothing was stored. *)
Theorem PutFile_then_DeleteFile objs path data :
  file_key (Driver.buildMinioPath path) = true →
  clash_free (<[Driver.buildMinioPath path := data]> objs) = true →
  objs !! Driver.buildMinioPath path = None →
  Driver.DeleteFile path
    (Driver.PutFile path data (-1) (minio.mkClient objs [])).2
  = (None, minio.mkClient objs []).
Proof.
  intros Hname%file_key_not_blank _ Hfree.
  rewrite (PutFile_healthy _ _ _ Hname). cbn [snd].
  unfold Driver.DeleteFile. rewrite (RemoveObject_healthy _ _ Hname).
  by rewrite delete_insert_eq, delete_id.
Qed.

Lemma PutFile_then_DeleteFile_witness :
  Driver.DeleteFile "/test.go"
    (Driver.PutFile "/test.go" (list_byte_of_string "test") (-1)
       (minio.mkClient {["src/" := []]} [])).2
  = (None, minio.mkClient {["src/" := []]} []).
Proof.
  apply (PutFile_then_DeleteFile {["src/" := []]} "/test.go").
  - reflexivity.
  - vm_compute. reflexivity.
  - reflexivity.
Defined.

(** ** Refusals *)

(** A path whose key is blank ("/" is one: its key is empty) cannot be used
    as a file: removing, uploading, downloading and renaming to it are
    refused by the client's check of the name, in both revisions, before
    anything is sent; bucket and faults stay as they are. *)
Theorem blank_key_refused path fromPath data offset c :
  strings.blank (Driver.buildMinioPath path) = true →
  let refused := errorString "Object name cannot be empty" in
  Driver.DeleteFile path c = (Some refused, c)
  ∧ Driver.PutFile path data (-1) c = ((0, Some refused), c)
  ∧ Driver.GetFile path offset c = ((0, None, Some refused), c)
  ∧ Driver.Rename fromPath path c = (Some refused, c)
  ∧ MinioDriver.PutFile path data false c = ((0, Some refused), c)
  ∧ (offset ≤ 0 →
     MinioDriver.GetFile path offset c = ((0, None, Some refused), c)).
Proof.
  intros Hname refused.
  unfold Driver.DeleteFile, Driver.PutFile, Driver.GetFile, Driver.Rename,
    MinioDriver.PutFile, MinioDriver.GetFile, minio.RemoveObject,
    minio.PutObject, minio.GetObject, minio.NewDestinationInfo,
    minio.CheckValidObjectName.
  change (MinioDriver.buildMinioPath path) with (Driver.buildMinioPath path).
  rewrite Hname. repeat split; try done.
  intros Hoff. by destruct (Z.ltb_spec 0 offset) as [?|_]; [lia|].
Qed.

Lemma blank_key_refused_witness :
  let c := minio.mkClient {["top" := list_byte_of_string "t"]}
             [Some (ErrorResponse "SlowDown")] in
  let refused := errorString "Object name cannot be empty" in
  Driver.DeleteFile "/" c = (Some refused, c)
  ∧ Driver.PutFile "/" (list_byte_of_string "x") (-1) c
    = ((0, Some refused), c)
  ∧ Driver.GetFile "/" 0 c = ((0, None, Some refused), c)
  ∧ Driver.Rename "/top" "/" c = (Some refused, c)
  ∧ MinioDriver.PutFile "/" (list_byte_of_string "x") false c
    = ((0, Some refused), c)
  ∧ (0 ≤ 0 → MinioDriver.GetFile "/" 0 c = ((0, None, Some refused), c)).
Proof.
  intros c.
  apply (blank_key_refused "/" "/top" (list_byte_of_string "x") 0 c).
  reflexivity.
Defined.

(** For a path whose key is the key of a file, [GetFile] of the newer
    driver refuses a negative offset before anything is sent, and answers
    with the store's [NoSuchKey] when nothing is stored under that key; in
    both cases it returns the count 0 and no object. *)
Theorem GetFile_refusals path objs :
  file_key (Driver.buildMinioPath path) = true →
  (∀ offset c, offset < 0 →
     Driver.GetFile path offset c
     = ((0, None, Some minio.InvalidArgument), c))
  ∧ (objs !! Driver.buildMinioPath path = None →
     ∀ offset, 0 ≤ offset →
       Driver.GetFile path offset (minio.mkClient objs [])
       = ((0, None, Some minio.NoSuchKey), minio.mkClient objs [])).
Proof.
  intros Hname%file_key_not_blank.
  apply CheckValidObjectName_None in Hname as Hvalid. split.
  - intros offset c Hoff. unfold Driver.GetFile, minio.GetObject, minio.Seek.
    rewrite Hvalid. by destruct (Z.ltb_spec offset 0) as [_|?]; [|lia].
  - intros Hfree offset Hoff.
    unfold Driver.GetFile, minio.GetObject, minio.Seek, minio.fetchInfo.
    rewrite Hvalid. destruct (Z.ltb_spec offset 0) as [?|_]; [lia|].
    run. cbn [minio.objectInfoSet minio.objectName].
    by rewrite (StatObject_healthy _ _ Hname), Hfree.
Qed.

Lemma GetFile_refusals_witness :
  (∀ offset c, offset < 0 →
     Driver.GetFile "/test.go" offset c
     = ((0, None, Some minio.InvalidArgument), c))
  ∧ ((∅ : gmap string (list Byte.byte)) !! Driver.buildMinioPath "/test.go"
     = None →
     ∀ offset, 0 ≤ offset →
       Driver.GetFile "/test.go" offset (minio.mkClient ∅ [])
       = ((0, None, Some minio.NoSuchKey), minio.mkClient ∅ [])).
Proof. apply (GetFile_refusals "/test.go" ∅). reflexivity. Defined.

(** [GetFile] of the older revision refuses every positive offset with
    [ErrNotImplemented] before anything is sent; at any other offset, a
    negative one included, it hands back the whole object with its size. *)
Theorem MinioDriver_GetFile_offsets objs path data :
  strings.blank (Driver.buildMinioPath path) = false →
  objs !! Driver.buildMinioPath path = Some data →
  (∀ offset c, 0 < offset →
     MinioDriver.GetFile path offset c
     = ((0, None, Some MinioDriver.ErrNotImplemented), c))
  ∧ ∀ offset, offset ≤ 0 →
      ∃ object,
        MinioDriver.GetFile path offset (minio.mkClient objs [])
        = ((len64 data, Some object, None), minio.mkClient objs [])
        ∧ minio.ReadAll object (minio.mkClient objs [])
          = ((data, None), minio.mkClient objs []).
Proof.
  intros Hname Hdata. apply CheckValidObjectName_None in Hname as Hvalid.
  split.
  - intros offset c Hoff. unfold MinioDriver.GetFile.
    by destruct (Z.ltb_spec 0 offset) as [_|?]; [|lia].
  - intros offset Hoff. unfold MinioDriver.GetFile.
    destruct (Z.ltb_spec 0 offset) as [?|_]; [lia|].
    change (MinioDriver.buildMinioPath path) with (Driver.buildMinioPath path).
    unfold minio.GetObject. rewrite Hvalid.
    unfold minio.Stat, minio.fetchInfo. run.
    cbn [minio.objectInfoSet minio.objectName].
    rewrite (StatObject_healthy _ _ Hname), Hdata. eexists. split; [done|].
    unfold minio.ReadAll. run. simpl. by rewrite Hdata.
Qed.

Lemma MinioDriver_GetFile_offsets_witness :
  let objs : gmap string (list Byte.byte) :=
    {["server_test.go" := list_byte_of_string "test"]} in
  (∀ offset c, 0 < offset →
     MinioDriver.GetFile "/server_test.go" offset c
     = ((0, None, Some MinioDriver.ErrNotImplemented), c))
  ∧ ∀ offset, offset ≤ 0 →
      ∃ object,
        MinioDriver.GetFile "/server_test.go" offset (minio.mkClient objs [])
        = ((len64 (list_byte_of_string "test"), Some object, None),
           minio.mkClient objs [])
        ∧ minio.ReadAll object (minio.mkClient objs [])
          = ((list_byte_of_string "test", None), minio.mkClient objs []).
Proof.
  intros objs.
  apply (MinioDriver_GetFile_offsets objs "/server_test.go"
           (list_byte_of_string "test")); reflexivity.
Defined.

(** ** More on Rename *)

Lemma Rename_healthy objs fromPath toPath :
  strings.blank (Driver.buildMinioPath fromPath) = false →
  strings.blank (Driver.buildMinioPath toPath) = false →
  Driver.Rename fromPath toPath (minio.mkClient objs [])
  = match objs !! Driver.buildMinioPath fromPath with
    | None => (Some minio.NoSuchKey, minio.mkClient objs [])
    | Some data =>
        if String.eqb (Driver.buildMinioPath fromPath)
             (Driver.buildMinioPath toPath)
        then (Some minio.InvalidRequest, minio.mkClient objs [])
        else (None,
              minio.mkClient
                (delete (Driver.buildMinioPath fromPath)
                   (<[Driver.buildMinioPath toPath := data]> objs)) [])
    end.
Proof.
  intros Hfrom Hto.
  unfold Driver.Rename, minio.NewDestinationInfo, minio.CheckValidObjectName.
  rewrite Hto. unfold minio.CopyObject, minio.NewSourceInfo. run. simpl.
  destruct (objs !! Driver.buildMinioPath fromPath) as [data|]; [|done].
  destruct (String.eqb _ _); [done|]. simpl.
  by rewrite (RemoveObject_healthy _ _ Hfrom).
Qed.

(** Renaming an object to a free path and back leaves the bucket as it
    was; both keys are keys of files, and the new one clashes with nothing
    stored. *)
Theorem Rename_there_and_back objs fromPath toPath data :
  file_key (Driver.buildMinioPath fromPath) = true →
  file_key (Driver.buildMinioPath toPath) = true →
  clash_free (<[Driver.buildMinioPath toPath := data]> objs) = true →
  objs !! Driver.buildMinioPath fromPath = Some data →
  objs !! Driver.buildMinioPath toPath = None →
  ∃ c1,
    Driver.Rename fromPath toPath (minio.mkClient objs []) = (None, c1)
    ∧ Driver.Rename toPath fromPath c1 = (None, minio.mkClient objs []).
Proof.
  intros Hfrom%file_key_not_blank Hto%file_key_not_blank _ Hdata Hfree.
  assert (Driver.buildMinioPath fromPath ≠ Driver.buildMinioPath toPath)
    as Hne by congruence.
  eexists. split.
  - rewrite (Rename_healthy _ _ _ Hfrom Hto), Hdata.
    by destruct (String.eqb_spec (Driver.buildMinioPath fromPath)
                   (Driver.buildMinioPath toPath)).
  - rewrite (Rename_healthy _ _ _ Hto Hfrom).
    rewrite lookup_delete_ne, lookup_insert_eq by done.
    destruct (String.eqb_spec (Driver.buildMinioPath toPath)
                (Driver.buildMinioPath fromPath)) as [?|_]; [congruence|].
    do 2 f_equal. apply map_eq. intros key.
    destruct (decide (key = Driver.buildMinioPath toPath)) as [->|?];
      [by rewrite lookup_delete_eq|].
    rewrite lookup_delete_ne by done.
    destruct (decide (key = Driver.buildMinioPath fromPath)) as [->|?];
      [by rewrite lookup_insert_eq|].
    by rewrite lookup_insert_ne, lookup_delete_ne, lookup_insert_ne by done.
Qed.

Lemma Rename_there_and_back_witness :
  let objs : gmap string (list Byte.byte) :=
    {["server_test.go" := list_byte_of_string "test"]} in
  ∃ c1,
    Driver.Rename "/server_test.go" "/test.go" (minio.mkClient objs [])
    = (None, c1)
    ∧ Driver.Rename "/test.go" "/server_test.go" c1
      = (None, minio.mkClient objs []).
Proof.
  intros objs.
  apply (Rename_there_and_back objs "/server_test.go" "/test.go"
           (list_byte_of_string "test")); vm_compute; reflexivity.
Defined.

(** [Rename] moves single objects only: a path under whose own key, a
    plain one, nothing is stored, a directory for one, is answered with the
    store's [NoSuchKey] when it is to be renamed to the key of a file, and
    nothing moves. *)
Theorem Rename_without_object objs fromPath toPath :
  plain (Driver.buildMinioPath fromPath) = true →
  file_key (Driver.buildMinioPath toPath) = true →
  objs !! Driver.buildMinioPath fromPath = None →
  Driver.Rename fromPath toPath (minio.mkClient objs [])
  = (Some minio.NoSuchKey, minio.mkClient objs []).
Proof.
  intros _ Hto%file_key_not_blank Hfree.
  unfold Driver.Rename, minio.NewDestinationInfo, minio.CheckValidObjectName.
  rewrite Hto. unfold minio.CopyObject, minio.NewSourceInfo. run. simpl.
  by rewrite Hfree.
Qed.

(** The directory "dir" holds a file and has its marker; it cannot be
    renamed. *)
Lemma Rename_without_object_witness :
  let objs : gmap string (list Byte.byte) :=
    <["dir/" := []]> {["dir/a" := list_byte_of_string "x"]} in
  Driver.Rename "/dir" "/other" (minio.mkClient objs [])
  = (Some minio.NoSuchKey, minio.mkClient objs []).
Proof.
  intros objs. apply (Rename_without_object objs "/dir" "/other"); reflexivity.
Defined.

(** An upload that is renamed downloads unchanged from its new path, and can
    no longer be downloaded from the old one; both keys are keys of files
    that clash with nothing stored. *)
Theorem PutFile_Rename_GetFile objs fromPath toPath data :
  file_key (Driver.buildMinioPath fromPath) = true →
  file_key (Driver.buildMinioPath toPath) = true →
  clash_free
    (<[Driver.buildMinioPath toPath := data]>
       (<[Driver.buildMinioPath fromPath := data]> objs)) = true →
  Driver.buildMinioPath fromPath ≠ Driver.buildMinioPath toPath →
  len64 data < 2 ^ 63 →
  let c1 := (Driver.PutFile fromPath data (-1) (minio.mkClient objs [])).2 in
  ∃ c2 object,
    Driver.Rename fromPath toPath c1 = (None, c2)
    ∧ Driver.GetFile toPath 0 c2 = ((len64 data, Some object, None), c2)
    ∧ minio.ReadAll object c2 = ((data, None), c2)
    ∧ Driver.GetFile fromPath 0 c2 = ((0, None, Some minio.NoSuchKey), c2).
Proof.
  intros Hfrom%file_key_not_blank Hto%file_key_not_blank _ Hne Hlen c1.
  unfold c1. rewrite (PutFile_healthy _ _ _ Hfrom). cbn [snd].
  rewrite (Rename_healthy _ _ _ Hfrom Hto), lookup_insert_eq.
  destruct (String.eqb_spec (Driver.buildMinioPath fromPath)
              (Driver.buildMinioPath toPath)) as [?|_]; [done|].
  eexists _, _. split; [done|].
  assert (delete (Driver.buildMinioPath fromPath)
            (<[Driver.buildMinioPath toPath := data]>
               (<[Driver.buildMinioPath fromPath := data]> objs))
          !! Driver.buildMinioPath toPath = Some data) as Hstored.
  { by rewrite lookup_delete_ne, lookup_insert_eq. }
  split; [|split].
  - rewrite (GetFile_stored _ _ data 0 Hto Hstored) by lia.
    destruct (Z.ltb_spec (len64 data) 0) as [?|_];
      [pose proof (len64_nonneg data); lia|].
    unfold sub64. rewrite wrap64_small, Z.sub_0_r; [done|].
    pose proof (len64_nonneg data). lia.
  - unfold minio.ReadAll. run. simpl. by rewrite Hstored.
  - unfold Driver.GetFile, minio.GetObject, minio.Seek, minio.fetchInfo.
    rewrite (proj2 (CheckValidObjectName_None _) Hfrom). simpl. run.
    cbn [minio.objectInfoSet minio.objectName].
    by rewrite (StatObject_healthy _ _ Hfrom), lookup_delete_eq.
Qed.

Lemma PutFile_Rename_GetFile_witness :
  let c1 := (Driver.PutFile "/server_test.go" (list_byte_of_string "test")
               (-1) (minio.mkClient ∅ [])).2 in
  ∃ c2 object,
    Driver.Rename "/server_test.go" "/test.go" c1 = (None, c2)
    ∧ Driver.GetFile "/test.go" 0 c2
      = ((len64 (list_byte_of_string "test"), Some object, None), c2)
    ∧ minio.ReadAll object c2 = ((list_byte_of_string "test", None), c2)
    ∧ Driver.GetFile "/server_test.go" 0 c2
      = ((0, None, Some minio.NoSuchKey), c2).
Proof.
  apply (PutFile_Rename_GetFile ∅ "/server_test.go" "/test.go"
           (list_byte_of_string "test")).
  - reflexivity.
  - reflexivity.
  - vm_compute. reflexivity.
  - discriminate.
  - reflexivity.
Defined.

(** ** More on DeleteDir *)

Lemma DeleteDir_range_revisions objectCh c :
  MinioDriver.DeleteDir_range objectCh c = Driver.DeleteDir_range objectCh c.
Proof.
  revert c. induction objectCh as [|o objectCh IH]; intros c; [done|].
  cbn [MinioDriver.DeleteDir_range Driver.DeleteDir_range].
  destruct (minio.Err o); [done|]. run.
  destruct (minio.RemoveObject (minio.Key o) c) as [[e|] c1]; [done|].
  apply IH.
Qed.

(** Whatever way the loop of [DeleteDir] ends, it has only removed, and only
    keys that were listed. *)
Lemma DeleteDir_range_only_removes objectCh c :
  minio.objects (Driver.DeleteDir_range objectCh c).2 ⊆ minio.objects c
  ∧ ∀ key, key ∉ minio.Key <$> objectCh →
           minio.objects (Driver.DeleteDir_range objectCh c).2 !! key
           = minio.objects c !! key.
Proof.
  revert c. induction objectCh as [|o objectCh IH]; intros c; [done|].
  cbn [Driver.DeleteDir_range]. destruct (minio.Err o); [done|]. run.
  destruct (minio.RemoveObject (minio.Key o) c) as [[e|] c1] eqn:Hrm;
    apply RemoveObject_spec in Hrm.
  - simpl. rewrite Hrm. done.
  - destruct (IH c1) as [Hsub Hkeep]. rewrite Hrm in Hsub, Hkeep. split.
    + etrans; [done|]. apply delete_subseteq.
    + intros key Hkey. rewrite fmap_cons in Hkey.
      apply not_elem_of_cons in Hkey as [Hne Hkey].
      rewrite (Hkeep key Hkey). by apply lookup_delete_ne.
Qed.

(** [DeleteDir] never stores or alters an object, and never touches one
    whose key does not begin with the key of the directory, whatever the
    faults and however it ends; this holds for both revisions. *)
Theorem DeleteDir_only_removes path c :
  (minio.objects (Driver.DeleteDir path c).2 ⊆ minio.objects c
   ∧ minio.objects (MinioDriver.DeleteDir path c).2 ⊆ minio.objects c)
  ∧ ∀ key,
      strings.HasPrefix key (Driver.buildMinioPath path) = false →
      minio.objects (Driver.DeleteDir path c).2 !! key = minio.objects c !! key
      ∧ minio.objects (MinioDriver.DeleteDir path c).2 !! key
        = minio.objects c !! key.
Proof.
  assert (∀ recursive,
    let c' := (minio.ListObjects (Driver.buildMinioPath path) recursive
                 ≫= Driver.DeleteDir_range) c in
    minio.objects c'.2 ⊆ minio.objects c
    ∧ ∀ key, strings.HasPrefix key (Driver.buildMinioPath path) = false →
             minio.objects c'.2 !! key = minio.objects c !! key) as Hboth.
  { intros recursive. unfold minio.ListObjects. run.
    pose proof (request_objects c) as Hreq.
    destruct (minio.request c) as [[e|] c1]; simpl in *; [by rewrite Hreq|].
    destruct (DeleteDir_range_only_removes
                (minio.listing (minio.objects c1)
                   (Driver.buildMinioPath path) recursive) c1)
      as [Hsub Hkeep].
    rewrite Hreq in *. split; [done|]. intros key Hkey. apply Hkeep.
    intros [o [-> Ho%listing_HasPrefix]]%list_elem_of_fmap. congruence. }
  assert (MinioDriver.DeleteDir path c
          = (minio.ListObjects (Driver.buildMinioPath path) false
               ≫= Driver.DeleteDir_range) c) as ->.
  { unfold MinioDriver.DeleteDir. run.
    change (MinioDriver.buildMinioPath path) with (Driver.buildMinioPath path).
    destruct (minio.ListObjects _ _ c). apply DeleteDir_range_revisions. }
  change (Driver.DeleteDir path c)
    with ((minio.ListObjects (Driver.buildMinioPath path) true
             ≫= Driver.DeleteDir_range) c).
  destruct (Hboth true) as [Hs1 Hk1], (Hboth false) as [Hs2 Hk2]. simpl in *.
  split; [done|]. intros key Hkey. split; [by apply Hk1|by apply Hk2].
Qed.




(** [DeleteDir] of the newer driver, then [Stat]: a directory with its
    marker, files and subdirectories is gone for [Stat], and so is all that
    was in it. *)
Lemma Stat_after_DeleteDir_witness :
  let objs : gmap string (list Byte.byte) :=
    <["dir/" := []]>
      (<["dir/a" := list_byte_of_string "x"]>
         {["dir/sub/b" := list_byte_of_string "y"]}) in
  Driver.DeleteDir "/dir" (minio.mkClient objs [])
  = (None, minio.mkClient ∅ [])
  ∧ (Driver.Stat "/dir/sub/b" (minio.mkClient ∅ [])).1
    = Fail (errorString "Not a directory").
Proof.
  intros objs.
  assert (Driver.DeleteDir "/dir" (minio.mkClient objs [])
          = (None, minio.mkClient ∅ [])) as HD by (vm_compute; reflexivity).
  split; [exact HD|].
  apply (Stat_after_DeleteDir "/dir" (minio.mkClient objs [])
           (minio.mkClient ∅ []) "/dir/sub/b" HD).
  - reflexivity.
  - discriminate.
  - reflexivity.
Defined.

(** ** More on ListDir *)

Lemma ListDir_range_gather p objectCh seen :
  (∀ o, o ∈ objectCh → minio.Err o = None) →
  Driver.ListDir_range p objectCh gather seen
  = (None,
     (seen ++ ((λ o, Driver.minioFileInfo.mk
                       (strings.TrimPrefix (minio.Key o) p) o
                       (strings.HasSuffix (minio.Key o) "/"))
                 <$> filter (λ o, minio.Key o ≠ p) objectCh))%list).
Proof.
  revert seen. induction objectCh as [|o objectCh IH]; intros seen Herr.
  { simpl. by rewrite app_nil_r. }
  cbn [Driver.ListDir_range]. rewrite (Herr o) by apply list_elem_of_here.
  rewrite filter_cons.
  destruct (String.eqb_spec (minio.Key o) p) as [Heq|Hne].
  - rewrite decide_False by (by intros ?).
    apply IH. intros ??. by apply Herr, list_elem_of_further.
  - rewrite decide_True by done. unfold gather at 1. cbn [fst snd].
    rewrite IH by (intros ??; by apply Herr, list_elem_of_further).
    by rewrite fmap_cons, <- (assoc_L (++)).
Qed.

(** The two collecting callbacks see the same entries. *)
Lemma ListDir_range_gather_collect p objectCh seen :
  Driver.ListDir_range p objectCh collect (Driver.minioFileInfo.Name <$> seen)
  = ((Driver.ListDir_range p objectCh gather seen).1,
     Driver.minioFileInfo.Name
       <$> (Driver.ListDir_range p objectCh gather seen).2).
Proof.
  revert seen. induction objectCh as [|o objectCh IH]; intros seen; [done|].
  cbn [Driver.ListDir_range]. destruct (minio.Err o); [done|].
  destruct (String.eqb (minio.Key o) p); [apply IH|].
  unfold gather at 1 3, collect at 1. cbn [fst snd].
  rewrite <- IH. by rewrite fmap_app.
Qed.

Lemma HasSuffix_app_nonempty front s suffix :
  s ≠ "" → suffix ≠ "" →
  strings.HasSuffix (front +:+ s) suffix = true →
  (String.length suffix ≤ String.length s)%nat →
  strings.HasSuffix s suffix = true.
Proof.
  intros Hs Hsuf Hfs Hlen. revert Hfs.
  induction front as [|a front IH]; [by rewrite string_app_nil_l|].
  rewrite string_app_cons. cbn [strings.HasSuffix].
  intros [Heq%String.eqb_eq|?]%orb_true_iff; [|by apply IH].
  apply (f_equal String.length) in Heq. simpl in Heq.
  rewrite string_length_app in Heq. lia.
Qed.

Lemma HasSuffix_slash_app front s :
  s ≠ "" →
  strings.HasSuffix (front +:+ s) "/" = strings.HasSuffix s "/".
Proof.
  intros Hs. destruct (strings.HasSuffix s "/") eqn:E.
  - apply HasSuffix_true in E as [f ->]. rewrite <- string_app_assoc.
    apply HasSuffix_app.
  - destruct (strings.HasSuffix (front +:+ s) "/") eqn:E'; [|done].
    rewrite <- E. symmetry. apply (HasSuffix_app_nonempty front); try done.
    destruct s; [done|simpl; lia].
Qed.

Lemma upto_delimiter_HasSuffix rest seg :
  minio.upto_delimiter rest = Some seg → strings.HasSuffix seg "/" = true.
Proof.
  revert seg. induction rest as [|a rest IH]; intros seg; [done|].
  cbn [minio.upto_delimiter]. destruct (Ascii.eqb a "/").
  - by intros [= <-].
  - destruct (minio.upto_delimiter rest) as [seg'|]; [|done].
    intros [= <-]. cbn [strings.HasSuffix]. rewrite (IH seg' eq_refl).
    apply orb_true_r.
Qed.

Lemma upto_delimiter_None_HasSuffix rest :
  minio.upto_delimiter rest = None → strings.HasSuffix rest "/" = false.
Proof.
  induction rest as [|a rest IH]; [done|]. cbn [minio.upto_delimiter].
  destruct (Ascii.eqb_spec a "/") as [->|Hne]; [done|].
  destruct (minio.upto_delimiter rest) as [seg'|] eqn:E; [done|].
  intros _. cbn [strings.HasSuffix]. rewrite IH by done.
  rewrite orb_false_r. apply String.eqb_neq. intros [= -> ->]. done.
Qed.

Lemma segment_idem rest : segment (segment rest) = segment rest.
Proof.
  induction rest as [|a rest IH]; [done|]. cbn [segment].
  destruct (Ascii.eqb a "/") eqn:Ea; [done|]. cbn [segment].
  by rewrite Ea, IH.
Qed.

(** What [ListDir] of the newer driver shows of a bucket that answers and
    is free of clashes, for the root or a directory with a plain key.  The
    names shown are the immediate children of the directory, each once; a
    name is never empty and is a single segment.  An entry is either a file,
    shown under its name below the directory with the size of what is stored
    and not as a directory, or a subdirectory, shown once for all that lies
    in it, with a name that ends in "/", as a directory, with size 0. *)
Theorem ListDir_entries objs path :
  dir_key path = "" ∨ plain (dir_key path) = true →
  clash_free objs = true →
  ∃ seen,
    Driver.ListDir path gather [] (minio.mkClient objs [])
    = ((None, seen), minio.mkClient objs [])
    ∧ NoDup (Driver.minioFileInfo.Name <$> seen)
    ∧ (∀ name, name ∈ Driver.minioFileInfo.Name <$> seen
               ↔ child objs (dir_key path) name)
    ∧ ∀ m, m ∈ seen →
        Driver.minioFileInfo.Name m ≠ ""
        ∧ segment (Driver.minioFileInfo.Name m) = Driver.minioFileInfo.Name m
        ∧ Driver.minioFileInfo.IsDir m
          = strings.HasSuffix (Driver.minioFileInfo.Name m) "/"
        ∧ if Driver.minioFileInfo.IsDir m
          then Driver.minioFileInfo.Size m = 0
          else ∃ data,
                 objs !! (dir_key path +:+ Driver.minioFileInfo.Name m)
                 = Some data
                 ∧ Driver.minioFileInfo.Size m = len64 data.
Proof.
  intros _ _.
  destruct (ListDir_children objs path) as (names & Hnames & Hnodup & Hchild).
  unfold Driver.ListDir in *. fold (dir_key path) in *. run.

  rewrite ListObjects_healthy in *.
  pose proof (ListDir_range_gather_collect (dir_key path)
                (minio.listing objs (dir_key path) false) []) as Hlink.
  rewrite fmap_nil in Hlink. rewrite Hlink in Hnames.
  rewrite ListDir_range_gather in * by (by intros o ?%listing_Err).
  rewrite app_nil_l in *. cbn [fst snd] in Hnames.
  injection Hnames as <-. eexists. split; [done|].
  split; [done|]. split; [done|].
  intros m [o [-> [Hne Ho]%list_elem_of_filter]]%list_elem_of_fmap.
  apply elem_of_listing in Ho as (key & data & Hkey & Hp & Ho).
  apply HasPrefix_true in Hp as [rest ->].
  rewrite commonPrefix_app in Ho.
  unfold Driver.minioFileInfo.Name, Driver.minioFileInfo.IsDir,
    Driver.minioFileInfo.Size. cbn [Driver.minioFileInfo.p
    Driver.minioFileInfo.isDir Driver.minioFileInfo.info].
  destruct (minio.upto_delimiter rest) as [seg|] eqn:Hseg; simpl in Ho;
    subst o; cbn [minio.Key minio.Size minio.info_of] in *;
    rewrite TrimPrefix_app.
  - pose proof (upto_delimiter_Some _ _ Hseg) as [Hseg1 Hseg2].
    rewrite (HasSuffix_slash_app _ _ Hseg1).
    rewrite (upto_delimiter_HasSuffix _ _ Hseg).
    split; [done|]. split; [|done].
    by rewrite upto_delimiter_segment, Hseg2.
  - assert (rest ≠ "") as Hrest.
    { intros ->. by rewrite string_app_nil_r in Hne. }
    rewrite (HasSuffix_slash_app _ _ Hrest).
    rewrite (upto_delimiter_None_HasSuffix _ Hseg).
    split; [done|]. split; [by rewrite upto_delimiter_segment, Hseg|].
    split; [done|]. by exists data.
Qed.

(** "/src" holds the file "b" and the directory "a/". *)
Lemma ListDir_entries_witness :
  let objs : gmap string (list Byte.byte) :=
    <["src/a/x.go" := list_byte_of_string "x"]>
      (<["src/b" := list_byte_of_string "test"]>
         {["top" := list_byte_of_string "t"]}) in
  (dir_key "/src" = "" ∨ plain (dir_key "/src") = true)
  ∧ clash_free objs = true
  ∧ ∃ seen,
      Driver.ListDir "/src" gather [] (minio.mkClient objs [])
      = ((None, seen), minio.mkClient objs [])
      ∧ NoDup (Driver.minioFileInfo.Name <$> seen)
      ∧ (∀ name, name ∈ Driver.minioFileInfo.Name <$> seen
                 ↔ child objs (dir_key "/src") name)
      ∧ ∀ m, m ∈ seen →
          Driver.minioFileInfo.Name m ≠ ""
          ∧ segment (Driver.minioFileInfo.Name m) = Driver.minioFileInfo.Name m
          ∧ Driver.minioFileInfo.IsDir m
            = strings.HasSuffix (Driver.minioFileInfo.Name m) "/"
          ∧ if Driver.minioFileInfo.IsDir m
            then Driver.minioFileInfo.Size m = 0
            else ∃ data,
                   objs !! (dir_key "/src" +:+ Driver.minioFileInfo.Name m)
                   = Some data
                   ∧ Driver.minioFileInfo.Size m = len64 data.
Proof.
  intros objs.
  assert (dir_key "/src" = "" ∨ plain (dir_key "/src") = true) as Hdir
    by (right; vm_compute; reflexivity).
  assert (clash_free objs = true) as Hfree by (vm_compute; reflexivity).
  split; [exact Hdir|]. split; [exact Hfree|].
  exact (ListDir_entries objs "/src" Hdir Hfree).
Defined.




(** What is uploaded under the key of a file shows in the listing of each
    directory above it, under the first segment of the rest of its key,
    when it clashes with nothing stored. *)
Theorem PutFile_shows_in_ListDir objs path parent rest data :
  file_key (Driver.buildMinioPath path) = true →
  clash_free (<[Driver.buildMinioPath path := data]> objs) = true →
  Driver.buildMinioPath path = dir_key parent +:+ rest →
  rest ≠ "" →
  ∃ seen c',
    Driver.ListDir parent collect []
      (Driver.PutFile path data (-1) (minio.mkClient objs [])).2
    = ((None, seen), c')
    ∧ segment rest ∈ seen.
Proof.
  intros Hname%file_key_not_blank _ Hkey Hrest.
  rewrite (PutFile_healthy _ _ _ Hname). cbn [snd].
  destruct (ListDir_children
              (<[Driver.buildMinioPath path := data]> objs) parent)
    as (seen & -> & _ & Hchild).
  eexists _, _. split; [done|]. apply Hchild.
  exists (Driver.buildMinioPath path), rest.
  rewrite lookup_insert_eq. by split; [eexists|].
Qed.

(** "/src/a/x.go" shows as "a/" in "/src". *)
Lemma PutFile_shows_in_ListDir_witness :
  let objs : gmap string (list Byte.byte) := {["src/" := []]} in
  file_key (Driver.buildMinioPath "/src/a/x.go") = true
  ∧ clash_free
      (<[Driver.buildMinioPath "/src/a/x.go" := list_byte_of_string "x"]> objs)
    = true
  ∧ ∃ seen c',
      Driver.ListDir "/src" collect []
        (Driver.PutFile "/src/a/x.go" (list_byte_of_string "x") (-1)
           (minio.mkClient objs [])).2
      = ((None, seen), c')
      ∧ segment "a/x.go" ∈ seen.
Proof.
  intros objs.
  assert (file_key (Driver.buildMinioPath "/src/a/x.go") = true) as Hname
    by (vm_compute; reflexivity).
  assert (clash_free
            (<[Driver.buildMinioPath "/src/a/x.go" := list_byte_of_string "x"]>
               objs) = true) as Hfree by (vm_compute; reflexivity).
  split; [exact Hname|]. split; [exact Hfree|].
  apply (PutFile_shows_in_ListDir objs "/src/a/x.go" "/src" "a/x.go"
           (list_byte_of_string "x") Hname Hfree).
  - reflexivity.
  - discriminate.
Defined.

(** So does a directory that [MakeDir] has made, when its marker key is
    plain and clashes with nothing stored. *)
Theorem MakeDir_shows_in_ListDir objs path parent rest :
  plain (Driver.buildMinioDir path) = true →
  clash_free (<[Driver.buildMinioDir path := []]> objs) = true →
  Driver.buildMinioDir path = dir_key parent +:+ rest →
  rest ≠ "" →
  ∃ seen c',
    Driver.ListDir parent collect []
      (Driver.MakeDir path (minio.mkClient objs [])).2
    = ((None, seen), c')
    ∧ segment rest ∈ seen.
Proof.
  intros _ _ Hkey Hrest. rewrite MakeDir_healthy. cbn [snd].
  destruct (ListDir_children
              (<[Driver.buildMinioDir path := []]> objs) parent)
    as (seen & -> & _ & Hchild).
  eexists _, _. split; [done|]. apply Hchild.
  exists (Driver.buildMinioDir path), rest.
  rewrite lookup_insert_eq. by split; [eexists|].
Qed.

(** "/src" shows as "src/" in the root. *)
Lemma MakeDir_shows_in_ListDir_witness :
  let objs : gmap string (list Byte.byte) :=
    {["top" := list_byte_of_string "t"]} in
  plain (Driver.buildMinioDir "/src") = true
  ∧ clash_free (<[Driver.buildMinioDir "/src" := []]> objs) = true
  ∧ ∃ seen c',
      Driver.ListDir "/" collect []
        (Driver.MakeDir "/src" (minio.mkClient objs [])).2
      = ((None, seen), c')
      ∧ segment "src/" ∈ seen.
Proof.
  intros objs.
  assert (plain (Driver.buildMinioDir "/src") = true) as Hname
    by (vm_compute; reflexivity).
  assert (clash_free (<[Driver.buildMinioDir "/src" := []]> objs) = true)
    as Hfree by (vm_compute; reflexivity).
  split; [exact Hname|]. split; [exact Hfree|].
  apply (MakeDir_shows_in_ListDir objs "/src" "/" "src/" Hname Hfree).
  - reflexivity.
  - discriminate.
Defined.

(** [ListDir] of the newer driver stops at the first error of the callback:
    the error is returned, and what the listing holds after that entry does
    not reach the callback. *)
Theorem ListDir_stops_at_callback_error {S : Type} objs path
    (callback : Driver.minioFileInfo.t → S → option error * S)
    before object after e s s' s'' :
  minio.listing objs (dir_key path) false
  = (before ++ object :: after)%list →
  Driver.ListDir_range (dir_key path) before callback s = (None, s') →
  minio.Key object ≠ dir_key path →
  callback
    (Driver.minioFileInfo.mk
       (strings.TrimPrefix (minio.Key object) (dir_key path)) object
       (strings.HasSuffix (minio.Key object) "/")) s'
  = (Some e, s'') →
  ∀ others,
    Driver.ListDir_range (dir_key path) (before ++ object :: others)%list
      callback s
    = (Some e, s'')
    ∧ Driver.ListDir path callback s (minio.mkClient objs [])
      = ((Some e, s''), minio.mkClient objs []).
Proof.
  intros Hlisting Hbefore Hkey Hcb others.
  assert (∀ l, Driver.ListDir_range (dir_key path)
                 (before ++ object :: l)%list callback s
               = (Some e, s'')) as Hstop.
  { intros l. rewrite ListDir_range_app, Hbefore. cbn [Driver.ListDir_range].
    rewrite (listing_Err objs (dir_key path) false object).
    - destruct (String.eqb_spec (minio.Key object) (dir_key path)) as [?|_];
        [done|]. by rewrite Hcb.
    - rewrite Hlisting. apply elem_of_app. right. apply list_elem_of_here. }
  split; [apply Hstop|]. unfold Driver.ListDir. fold (dir_key path). run.
  by rewrite ListObjects_healthy, Hlisting, Hstop.
Qed.

(** The callback fails on "b": "a" is seen, "c" is not, and "d", had it been
    listed in place of "c", would not have been seen either. *)
Lemma ListDir_stops_at_callback_error_witness :
  let objs : gmap string (list Byte.byte) :=
    <["a" := []]> (<["b" := []]> {["c" := []]}) in
  let callback (m : Driver.minioFileInfo.t) (seen : list string) :=
    if String.eqb (Driver.minioFileInfo.Name m) "b"
    then (Some minio.EOF, seen)
    else (None, (seen ++ [Driver.minioFileInfo.Name m])%list) in
  Driver.ListDir_range (dir_key "/")
    ([minio.mkObjectInfo "a" 0 None]
     ++ minio.mkObjectInfo "b" 0 None :: [minio.mkObjectInfo "d" 0 None])%list
    callback []
  = (Some minio.EOF, ["a"])
  ∧ Driver.ListDir "/" callback [] (minio.mkClient objs [])
    = ((Some minio.EOF, ["a"]), minio.mkClient objs []).
Proof.
  intros objs callback.
  apply (ListDir_stops_at_callback_error objs "/" callback
           [minio.mkObjectInfo "a" 0 None] (minio.mkObjectInfo "b" 0 None)
           [minio.mkObjectInfo "c" 0 None] minio.EOF [] ["a"] ["a"]).
  - vm_compute. reflexivity.
  - reflexivity.
  - discriminate.
  - reflexivity.
Defined.

(** On the root the two revisions show the same names, in the same order,
    and end alike, whatever the faults (no object has the empty key: the
    client refuses to store one). *)
Theorem ListDir_root_revisions c :
  minio.objects c !! "" = None →
  MinioDriver.ListDir "/" collect_old [] c = Driver.ListDir "/" collect [] c.
Proof.
  intros Hkey.
  assert (∀ l seen,
            (∀ o, o ∈ l → minio.Err o = None → minio.Key o ≠ "") →
            MinioDriver.ListDir_range l collect_old seen
            = Driver.ListDir_range "" l collect seen) as Hrange.
  { induction l as [|o l IH]; intros seen Hl; [done|].
    cbn [MinioDriver.ListDir_range Driver.ListDir_range].
    destruct (minio.Err o) eqn:Herr; [done|].
    destruct (String.eqb_spec (minio.Key o) "") as [Heq|_].
    { by destruct (Hl o (list_elem_of_here _ _) Herr). }
    unfold collect_old at 1, collect at 1. cbn [fst snd].
    unfold MinioDriver.minioFileInfo.Name, Driver.minioFileInfo.Name.
    cbn [MinioDriver.minioFileInfo.p Driver.minioFileInfo.p].
    change (strings.TrimPrefix (minio.Key o) "") with (minio.Key o).
    apply IH. intros ??. by apply Hl, list_elem_of_further. }
  unfold MinioDriver.ListDir, Driver.ListDir. run.
  change (MinioDriver.buildMinioPath "/") with "".
  change (if String.eqb (Driver.buildMinioDir "/") "/" then ""
          else Driver.buildMinioDir "/") with "".
  unfold minio.ListObjects. run. pose proof (request_objects c) as Hreq.
  destruct (minio.request c) as [[e|] c1]; simpl in *; [done|].
  f_equal. apply Hrange. intros o Ho _.
  apply elem_of_listing in Ho as (key & data & Hdata & _ & Ho).
  rewrite Hreq in Hdata.
  destruct (minio.commonPrefix "" key) as [cp|] eqn:Hcp; subst o; simpl.
  - pose proof (commonPrefix_app "" key) as Hcp'.
    rewrite string_app_nil_l, Hcp in Hcp'.
    destruct (minio.upto_delimiter key) as [seg|] eqn:Hseg; [|done].
    injection Hcp' as ->. rewrite string_app_nil_l.
    by apply upto_delimiter_Some in Hseg as [? _].
  - intros ->. congruence.
Qed.

Lemma ListDir_root_revisions_witness :
  let c := minio.mkClient
             (<["dir/a" := list_byte_of_string "x"]>
                {["top" := list_byte_of_string "t"]}) [] in
  MinioDriver.ListDir "/" collect_old [] c = Driver.ListDir "/" collect [] c.
Proof.
  intros c. apply (ListDir_root_revisions c). reflexivity.
Defined.

(** ** The temporary object of an upload at an offset *)

Lemma buildMinioPath_no_slash p :
  strings.HasPrefix p "/" = false → Driver.buildMinioPath p = p.
Proof.
  unfold Driver.buildMinioPath, strings.TrimPrefix, strings.HasPrefix.
  by destruct (strings.strip "/" p).
Qed.

(** However an upload at an offset (any but -1) ends on a bucket that
    answers, nothing is stored under the key of the path followed by ".tmp"
    afterwards: the deferred [DeleteFile] removes the temporary object, and
    with it whatever a user had stored under that name. *)
Theorem PutFile_offset_clears_tempFile objs destPath data offset :
  let p := Driver.buildMinioPath destPath in
  offset ≠ -1 →
  strings.blank p = false →
  strings.HasPrefix p "/" = false →
  minio.objects
    (Driver.PutFile destPath data offset (minio.mkClient objs [])).2
  !! (p +:+ ".tmp") = None.
Proof.
  intros p Hoff Hname Hslash.
  assert (strings.HasPrefix (p +:+ ".tmp") "/" = false) as Hslash'.
  { revert Hslash. unfold strings.HasPrefix. destruct p as [|a p']; [done|].
    rewrite string_app_cons. cbn [strings.strip].
    by destruct (Ascii.eqb "/" a). }
  destruct (tempFile_key p) as [_ Htmp].
  rewrite (buildMinioPath_no_slash _ Hslash') in Htmp.
  unfold Driver.PutFile. fold p.
  destruct (Z.eqb_spec offset (-1)) as [?|_]; [done|]. run.
  unfold Driver.DeleteFile. rewrite (buildMinioPath_no_slash _ Hslash').
  rewrite (StatObject_healthy _ _ Hname).
  destruct (objs !! p) as [old|] eqn:Hold.
  2:{ rewrite (RemoveObject_healthy _ _ Htmp). apply lookup_delete_eq. }
  cbn [minio.info_of minio.Size].
  destruct (negb (offset =? len64 old)).
  { rewrite (RemoveObject_healthy _ _ Htmp). apply lookup_delete_eq. }
  rewrite (PutObject_healthy _ _ _ Htmp).
  unfold minio.NewDestinationInfo, minio.CheckValidObjectName.
  rewrite Hname.
  destruct (ComposeObject_healthy p
              [minio.NewSourceInfo (p +:+ ".tmp"); minio.NewSourceInfo p]
              (<[p +:+ ".tmp" := data]> objs)) as (err & objs' & ->).
  rewrite (RemoveObject_healthy _ _ Htmp). apply lookup_delete_eq.
Qed.

(** The user's "top.tmp" is gone after a refused resume of "top". *)
Lemma PutFile_offset_clears_tempFile_witness :
  let objs : gmap string (list Byte.byte) :=
    <["top" := list_byte_of_string "t"]>
      {["top.tmp" := list_byte_of_string "mine"]} in
  minio.objects
    (Driver.PutFile "/top" (list_byte_of_string "new") 7
       (minio.mkClient objs [])).2
  !! ("top" +:+ ".tmp") = None.
Proof.
  intros objs.
  apply (PutFile_offset_clears_tempFile objs "/top"
           (list_byte_of_string "new") 7).
  - discriminate.
  - reflexivity.
  - reflexivity.
Defined.

(** ** The checks of the test *)

(** [assetMockNotifier] passes exactly when no actions are asked for or the
    actions asked for are the last ones that the mock has recorded. *)
Theorem assetMockNotifier_suffix mock lastActions :
  assetMockNotifier mock lastActions = true
  ↔ lastActions = [] ∨ lastActions `suffix_of` actions mock.
Proof.
  unfold assetMockNotifier.
  destruct (Nat.eqb_spec (length lastActions) 0) as [Hnil|Hnil].
  { apply length_zero_iff_nil in Hnil. by split; [left|]. }
  destruct (Nat.ltb_spec (length (actions mock)) (length lastActions))
    as [Hlt|Hle].
  - split; [done|]. intros [->|[k Hk]]; [done|].
    apply (f_equal length) in Hk. rewrite length_app in Hk. lia.
  - rewrite bool_decide_eq_true. split.
    + intros Hlast. right.
      exists (take (length (actions mock) - length lastActions)
                (actions mock)).
      rewrite Hlast at 2. by rewrite take_drop.
    + intros [->|[k Hk]]; [done|]. rewrite Hk, length_app.
      replace (length k + length lastActions - length lastActions)%nat
        with (length k) by lia.
      by rewrite drop_app_length.
Qed.

(** ** Setting up *)

Section NewDriver_facts.
Import setup.
Variable New : string → option error.
Variable CheckValidBucketName : string → option error.

Lemma setup_request_buckets sv : buckets (request sv).2 = buckets sv.
Proof. unfold request. by destruct (faults sv). Qed.

(** The two revisions set a driver up alike. *)
Lemma NewDriver_revisions
    endpoint accessKeyID secretAccessKey location bucket useSSL sv :
  factory_NewDriver New CheckValidBucketName
    (NewMinioDriverFactory endpoint accessKeyID secretAccessKey location
       bucket useSSL) sv
  = NewDriver New CheckValidBucketName endpoint accessKeyID secretAccessKey
      location bucket useSSL sv.
Proof. reflexivity. Qed.

(** What [NewDriver] does to the service and what it returns, by cases. *)
Lemma NewDriver_cases
    endpoint accessKeyID secretAccessKey location bucket useSSL sv :
  let r := NewDriver New CheckValidBucketName endpoint accessKeyID
             secretAccessKey location bucket useSSL sv in
  match r.1 with
  | Ok driver =>
      driver = mkDriver endpoint bucket
      ∧ New endpoint = None
      ∧ CheckValidBucketName bucket = None
      ∧ buckets r.2
        = <[bucket := default ∅ (buckets sv !! bucket)]> (buckets sv)
  | Fail err =>
      buckets r.2 = buckets sv
      ∧ (New endpoint = Some err
         ∨ (MakeBucket CheckValidBucketName bucket location sv).1 = Some err)
  end.
Proof.
  unfold NewDriver. destruct (New endpoint) as [err|]; [by split; [|left]|].
  unfold MakeBucket, BucketExists.
  destruct (CheckValidBucketName bucket) as [err|]; [by split; [|right]|].
  pose proof (setup_request_buckets sv) as Hreq.
  destruct (request sv) as [[err|] sv1]; cbn [fst snd] in *.
  - pose proof (setup_request_buckets sv1) as Hreq1.
    destruct (request sv1) as [[err1|] sv2]; cbn [fst snd] in *.
    + cbn [negb orb fst snd]. split; [congruence|by right].
    + destruct (buckets sv2 !! bucket) as [objs|] eqn:Hb.
      * rewrite bool_decide_true by (by eexists).
        rewrite bool_decide_false by (by intros ?). cbn [negb orb fst snd].
        rewrite Hreq1, Hreq in Hb |- *. rewrite Hb. cbn [default].
        by rewrite insert_id.
      * rewrite bool_decide_false by (by intros [??]). cbn [negb orb fst snd].
        split; [congruence|by right].
  - destruct (buckets sv1 !! bucket) as [objs|] eqn:Hb; cbn [fst snd].
    + pose proof (setup_request_buckets sv1) as Hreq1.
      destruct (request sv1) as [[err1|] sv2]; cbn [fst snd] in *.
      * cbn [negb orb fst snd]. split; [congruence|by right].
      * rewrite Hreq1, Hb. rewrite bool_decide_true by (by eexists).
        rewrite bool_decide_false by (by intros ?). cbn [negb orb fst snd].
        rewrite Hreq1. rewrite Hreq in Hb |- *. rewrite Hb. cbn [default].
        by rewrite insert_id.
    + cbn [buckets]. rewrite Hreq in Hb |- *. by rewrite Hb.
Qed.

(** [NewDriver] never removes a bucket nor touches what is stored: on
    success the driver's bucket is there, and the driver's client finds in
    it what was stored before (nothing, when the bucket is new); on
    failure the service is as before, and the error returned is that of
    [minio.New] or of [MakeBucket], never that of [BucketExists]. *)
Theorem NewDriver_keeps_objects
    endpoint accessKeyID secretAccessKey location bucket useSSL sv :
  let r := NewDriver New CheckValidBucketName endpoint accessKeyID
             secretAccessKey location bucket useSSL sv in
  (∀ name objs, buckets sv !! name = Some objs →
                buckets r.2 !! name = Some objs)
  ∧ match r.1 with
    | Ok driver =>
        is_Some (buckets r.2 !! bucket)
        ∧ minio.objects (client_of driver r.2)
          = default ∅ (buckets sv !! bucket)
    | Fail err =>
        buckets r.2 = buckets sv
        ∧ (New endpoint = Some err
           ∨ (MakeBucket CheckValidBucketName bucket location sv).1
             = Some err)
    end.
Proof.
  intros r.
  pose proof (NewDriver_cases endpoint accessKeyID secretAccessKey location
                bucket useSSL sv) as Hcases.
  cbv zeta in Hcases. subst r.
  destruct (NewDriver _ _ _ _ _ _ _ _ sv) as [[driver|err] sv'];
    cbn [fst snd] in *.
  - destruct Hcases as (-> & _ & _ & Hb). rewrite Hb. split.
    + intros name objs Hname.
      destruct (decide (name = bucket)) as [->|Hne].
      * by rewrite lookup_insert_eq, Hname.
      * by rewrite lookup_insert_ne.
    + unfold client_of. cbn [setup.bucket minio.objects].
      rewrite Hb, lookup_insert_eq. by split; [eexists|].
  - destruct Hcases as [Hb Herr]. rewrite Hb. by split.
Qed.

(** "If you run this twice": once [NewDriver] has succeeded, it succeeds
    again on a service that answers, with the same driver, through the
    answer of [BucketExists], and leaves the service as it is. *)
Theorem NewDriver_again
    endpoint accessKeyID secretAccessKey location bucket useSSL sv driver sv1 :
  NewDriver New CheckValidBucketName endpoint accessKeyID secretAccessKey
    location bucket useSSL sv = (Ok driver, sv1) →
  MakeBucket CheckValidBucketName bucket location (mkService (buckets sv1) [])
  = (Some BucketAlreadyOwnedByYou, mkService (buckets sv1) [])
  ∧ NewDriver New CheckValidBucketName endpoint accessKeyID secretAccessKey
      location bucket useSSL (mkService (buckets sv1) [])
    = (Ok driver, mkService (buckets sv1) []).
Proof.
  intros Hfirst.
  pose proof (NewDriver_cases endpoint accessKeyID secretAccessKey location
                bucket useSSL sv) as Hcases.
  rewrite Hfirst in Hcases. cbn [fst snd] in Hcases.
  destruct Hcases as (-> & Hnew & Hcheck & Hb).
  assert (is_Some (buckets sv1 !! bucket)) as [objs Hobjs].
  { rewrite Hb, lookup_insert_eq. by eexists. }
  unfold NewDriver, MakeBucket, BucketExists.
  rewrite Hnew, Hcheck. cbn [request faults buckets]. rewrite Hobjs.
  split; [done|]. cbn [request faults buckets]. rewrite Hobjs.
  rewrite bool_decide_true by (by eexists).
  by rewrite bool_decide_false by (by intros ?).
Qed.

End NewDriver_facts.

(** On a service without buckets the first call makes the bucket, and the
    second finds it. *)
Lemma NewDriver_again_witness :
  let New (endpoint : string) : option error := None in
  let Check (bucketName : string) : option error := None in
  let sv := setup.mkService ∅ [] in
  let sv1 := setup.mkService {["ftp" := ∅]} [] in
  setup.NewDriver New Check "localhost:9000" "key" "secret" "us-east-1"
    "ftp" false sv
  = (Ok (setup.mkDriver "localhost:9000" "ftp"), sv1)
  ∧ setup.MakeBucket Check "ftp" "us-east-1"
      (setup.mkService (setup.buckets sv1) [])
    = (Some setup.BucketAlreadyOwnedByYou,
       setup.mkService (setup.buckets sv1) [])
  ∧ setup.NewDriver New Check "localhost:9000" "key" "secret" "us-east-1"
      "ftp" false (setup.mkService (setup.buckets sv1) [])
    = (Ok (setup.mkDriver "localhost:9000" "ftp"),
       setup.mkService (setup.buckets sv1) []).
Proof.
  intros New Check sv sv1.
  assert (setup.NewDriver New Check "localhost:9000" "key" "secret"
            "us-east-1" "ftp" false sv
          = (Ok (setup.mkDriver "localhost:9000" "ftp"), sv1)) as Hfirst.
  { vm_compute. reflexivity. }
  split; [exact Hfirst|].
  exact (NewDriver_again New Check "localhost:9000" "key" "secret"
           "us-east-1" "ftp" false sv _ sv1 Hfirst).
Defined.

(** ** A removal that fails *)

Lemma DeleteDir_range_failed_removal before o after e fs objs :
  (∀ x, x ∈ before → minio.Err x = None
                     ∧ strings.blank (minio.Key x) = false) →
  minio.Err o = None →
  strings.blank (minio.Key o) = false →
  ∃ objs',
    Driver.DeleteDir_range (before ++ o :: after)%list
      (minio.mkClient objs (replicate (length before) None ++ Some e :: fs)%list)
    = (Some e, minio.mkClient objs' fs)
    ∧ ∀ key, objs' !! key
             = if decide (key ∈ minio.Key <$> before) then None
               else objs !! key.
Proof.
  revert objs. induction before as [|x before IH]; intros objs Hbefore Ho Hname.
  - exists objs. split.
    + cbn [app length replicate Driver.DeleteDir_range]. rewrite Ho. run.
      unfold minio.RemoveObject, minio.CheckValidObjectName. by rewrite Hname.
    + intros key. destruct (decide _) as [Hin|_]; [|done].
      by apply elem_of_nil in Hin.
  - destruct (Hbefore x (list_elem_of_here _ _)) as [Hx Hxname].
    destruct (IH (delete (minio.Key x) objs)) as (objs' & HR & Hobjs');
      [intros ??; by apply Hbefore, list_elem_of_further|done..|].
    exists objs'. split.
    + rewrite <- app_comm_cons. cbn [length replicate app Driver.DeleteDir_range].
      rewrite Hx. run.
      unfold minio.RemoveObject at 1, minio.CheckValidObjectName.
      rewrite Hxname. run. cbn [minio.request minio.faults minio.objects].
      exact HR.
    + intros key. rewrite Hobjs', fmap_cons.
      destruct (decide (key ∈ minio.Key <$> before)) as [Hin|Hin].
      * rewrite decide_True; [done|]. by apply list_elem_of_further.
      * destruct (decide (key = minio.Key x)) as [->|Hne].
        -- rewrite decide_True by apply list_elem_of_here.
           apply lookup_delete_eq.
        -- rewrite decide_False by (by intros [?|?]%elem_of_cons).
           by apply lookup_delete_ne.
Qed.

(** A removal that fails ends [DeleteDir] with its error, and the directory
    is left in parts: what was listed before the object that could not be
    removed is gone, that object and all that is listed after it stay. *)
Theorem DeleteDir_failed_removal objs path before o after e fs :
  minio.listing objs (Driver.buildMinioPath path) true
  = (before ++ o :: after)%list →
  (∀ x, x ∈ (before ++ [o])%list → strings.blank (minio.Key x) = false) →
  ∃ objs',
    Driver.DeleteDir path
      (minio.mkClient objs
         (None :: replicate (length before) None ++ Some e :: fs)%list)
    = (Some e, minio.mkClient objs' fs)
    ∧ ∀ key, objs' !! key
             = if decide (key ∈ minio.Key <$> before) then None
               else objs !! key.
Proof.
  intros Hlisting Hnames. unfold Driver.DeleteDir, minio.ListObjects. run.
  cbn [minio.request minio.faults minio.objects]. rewrite Hlisting.
  assert (∀ x, x ∈ (before ++ o :: after)%list → minio.Err x = None) as Herr.
  { intros x Hx. rewrite <- Hlisting in Hx. by eapply listing_Err. }
  apply DeleteDir_range_failed_removal.
  - intros x Hx. split.
    + apply Herr, elem_of_app. by left.
    + apply Hnames, elem_of_app. by left.
  - apply Herr, elem_of_app. right. apply list_elem_of_here.
  - apply Hnames, elem_of_app. right. apply list_elem_of_here.
Qed.

(** The second of three removals fails. *)
Lemma DeleteDir_failed_removal_witness :
  let objs : gmap string (list Byte.byte) :=
    <["dir/a" := []]> (<["dir/b" := []]> {["dir/c" := []]}) in
  ∃ objs',
    Driver.DeleteDir "/dir"
      (minio.mkClient objs
         (None :: replicate (length [minio.mkObjectInfo "dir/a" 0 None]) None
            ++ Some (ErrorResponse "SlowDown") :: [])%list)
    = (Some (ErrorResponse "SlowDown"), minio.mkClient objs' [])
    ∧ ∀ key, objs' !! key
             = if decide (key ∈ minio.Key <$> [minio.mkObjectInfo "dir/a" 0 None])
               then None
               else objs !! key.
Proof.
  intros objs.
  apply (DeleteDir_failed_removal objs "/dir"
           [minio.mkObjectInfo "dir/a" 0 None]
           (minio.mkObjectInfo "dir/b" 0 None)
           [minio.mkObjectInfo "dir/c" 0 None]).
  - vm_compute. reflexivity.
  - intros x [->|[->|[]%elem_of_nil]%elem_of_cons]%elem_of_cons; reflexivity.
Defined.
